(** * Omnivore content handlers: the Twitter/X handler and the
      newsletter unsubscribe helpers

    A shallow embedding of
    [packages/content-handler/src/websites/twitter-handler.ts] and of the
    subscription service ([parseUnsubscribeMailTo], [sendUnsubscribeEmail]).

    Conventions.
    - A JavaScript string is a [string]: a sequence of code units, of which
      the model covers the values 0..255.
    - A regular-expression literal is a value of [regex]; [run] is the
      backtracking matcher of ECMAScript (continuation passing, greedy
      quantifiers, leftmost alternative first).
    - Asynchronous, effectful functions are computations in the monad [M]:
      they thread a [World] (the trace of observable events and the object
      store) and end in a value or in a thrown exception.
    - Everything the platform decides (HTTP answers, the headless browser,
      the HTML and URL parsers, the mailer) is read from an [Env]. *)

From Stdlib Require Import String Ascii ZArith Lia Bool List Sorted.
From stdpp Require Import base option list strings pretty gmap sorting.

Set Default Proof Using "Type".

(* stdpp blocks the unfolding of string concatenation; the proofs below
   compute with it. *)
#[global] Arguments String.append !_ _ / : simpl nomatch.

(** ** Strings *)

Module Str.

Fixpoint drop (n : nat) (s : string) : string :=
  match n, s with
  | 0, _ => s
  | S n', String _ s' => drop n' s'
  | S _, EmptyString => EmptyString
  end.

Fixpoint take (n : nat) (s : string) : string :=
  match n, s with
  | 0, _ => EmptyString
  | S n', String a s' => String a (take n' s')
  | S _, EmptyString => EmptyString
  end.

Fixpoint forallb (p : ascii → bool) (s : string) : bool :=
  match s with
  | EmptyString => true
  | String a s' => p a && forallb p s'
  end.

Fixpoint existsb (p : ascii → bool) (s : string) : bool :=
  match s with
  | EmptyString => false
  | String a s' => p a || existsb p s'
  end.

(** [s.includes(c)] for a one-character needle. *)
Definition includes_char (c : ascii) (s : string) : bool :=
  existsb (Ascii.eqb c) s.

(** The longest prefix of [s] whose characters all satisfy [p], and what
    follows it. *)
Fixpoint span (p : ascii → bool) (s : string) : string * string :=
  match s with
  | EmptyString => (EmptyString, EmptyString)
  | String a s' =>
      if p a then let '(u, v) := span p s' in (String a u, v)
      else (EmptyString, s)
  end.

(** [s] without its prefix [w], when [s] starts with [w]. *)
Fixpoint strip_prefix (w s : string) : option string :=
  match w, s with
  | EmptyString, _ => Some s
  | String a w', String b s' => if Ascii.eqb a b then strip_prefix w' s' else None
  | String _ _, EmptyString => None
  end.

(** [Array.prototype.join] with the default separator. *)
Definition join (l : list string) : string := String.concat "," l.

End Str.

(** ** Regular expressions

    The two regular-expression literals of the handler and the one of the
    in-page script are values of [regex].  [run] follows the matcher of the
    ECMAScript specification: a matcher takes the rest of the input, the
    captures so far and a continuation; a quantifier is greedy and gives up
    an iteration that consumed nothing; an alternative tries its left
    branch first.  None of the literals below has a capturing group under
    a quantifier, so the reset of captures at each iteration is not
    modelled. *)

Module Regex.

Definition code (a : ascii) : N := N_of_ascii a.

Definition in_range (lo hi : N) (a : ascii) : bool :=
  ((lo <=? code a) && (code a <=? hi))%N.

(** [\d] *)
Definition is_digit (a : ascii) : bool := in_range 48 57 a.

(** [\w]: letters, digits and the underscore. *)
Definition is_word (a : ascii) : bool :=
  in_range 65 90 a || in_range 97 122 a || is_digit a || (code a =? 95)%N.

(** [\s] on the code units 0..255: tab, line feed, vertical tab, form feed,
    carriage return, space and the no-break space. *)
Definition is_white_space (a : ascii) : bool :=
  in_range 9 13 a || (code a =? 32)%N || (code a =? 160)%N.

(** [\S] *)
Definition is_non_space (a : ascii) : bool := negb (is_white_space a).

(** [.] (without the [s] flag) matches anything but a line terminator. *)
Definition is_dot (a : ascii) : bool :=
  negb ((code a =? 10)%N || (code a =? 13)%N).

(** [[^/]] *)
Definition is_not_slash (a : ascii) : bool := negb (Ascii.eqb a "/").

Inductive regex : Type :=
| Empty
| Chr (a : ascii)
| Class (p : ascii → bool)
| Seq (r1 r2 : regex)
| Alt (r1 r2 : regex)
| Star (r : regex)
| Opt (r : regex)
| Group (n : nat) (r : regex).

(** A run of literal characters. *)
Fixpoint lits (w : string) : regex :=
  match w with
  | EmptyString => Empty
  | String a w' => Seq (Chr a) (lits w')
  end.

(** [r+] *)
Definition Plus (r : regex) : regex := Seq r (Star r).

(** Captures: group number to captured text. *)
Abbreviation captures := (gmap nat string).

Definition cont (R : Type) : Type := string → captures → option R.

(** What a matcher consumed, given the input it started from and the rest
    it handed to its continuation. *)
Definition consumed (s rest : string) : string :=
  Str.take (String.length s - String.length rest) s.

Definition progress (s rest : string) : bool :=
  String.length rest <? String.length s.

Section Loop.
Context {R : Type}.
Variable m : string → captures → cont R → option R.

(** Greedy [r*]: one more iteration when it consumes something and the
    rest of the pattern then matches, otherwise stop here.  The fuel is
    never exhausted when it exceeds the length of the input. *)
Fixpoint star_loop (fuel : nat) (s : string) (c : captures) (k : cont R)
  : option R :=
  match fuel with
  | 0 => k s c
  | S fuel' =>
      match m s c (fun s' c' =>
                     if progress s s' then star_loop fuel' s' c' k
                     else None) with
      | Some v => Some v
      | None => k s c
      end
  end.
End Loop.

Fixpoint run {R : Type} (r : regex) (s : string) (c : captures) (k : cont R)
  : option R :=
  match r with
  | Empty => k s c
  | Chr a =>
      match s with
      | String b s' => if Ascii.eqb a b then k s' c else None
      | EmptyString => None
      end
  | Class p =>
      match s with
      | String b s' => if p b then k s' c else None
      | EmptyString => None
      end
  | Seq r1 r2 => run r1 s c (fun s' c' => run r2 s' c' k)
  | Alt r1 r2 =>
      match run r1 s c k with
      | Some v => Some v
      | None => run r2 s c k
      end
  | Star r1 => star_loop (run r1) (S (String.length s)) s c k
  | Opt r1 =>
      match run r1 s c (fun s' c' => if progress s s' then k s' c' else None)
      with
      | Some v => Some v
      | None => k s c
      end
  | Group n r1 => run r1 s c (fun s' c' => k s' (<[n := consumed s s']> c'))
  end.

(** The result of a successful match: the text before the match, the
    matched text, the captures and the text after the match. *)
Record match_result : Type := MatchResult {
  before : string;
  matched : string;
  groups : captures;
  after : string
}.

(** Match at the start of [s]. *)
Definition match_here (r : regex) (s : string) : option (string * captures) :=
  run r s ∅ (fun rest c => Some (rest, c)).

(** [RegExp.prototype.exec] without flags: the leftmost start position at
    which the pattern matches.  [pre] is the text already skipped, in
    reverse. *)
Fixpoint search (r : regex) (pre : string) (s : string) : option match_result :=
  match match_here r s with
  | Some (rest, c) => Some (MatchResult pre (consumed s rest) c rest)
  | None =>
      match s with
      | EmptyString => None
      | String a s' => search r (pre +:+ String a EmptyString) s'
      end
  end.

Definition exec (r : regex) (s : string) : option match_result :=
  search r EmptyString s.

(** [RegExp.prototype.test] *)
Definition test (r : regex) (s : string) : bool :=
  match exec r s with Some _ => true | None => false end.

(** [match?.[i]] for [i > 0] after [String.prototype.match] *)
Definition match_group (r : regex) (s : string) (i : nat) : option string :=
  match exec r s with
  | Some m => groups m !! i
  | None => None
  end.

(** [s.replace(r, '')] for a pattern without the [g] flag: the first match
    is removed. *)
Definition replace_first_empty (r : regex) (s : string) : string :=
  match exec r s with
  | Some m => before m +:+ after m
  | None => s
  end.

(** *** What a match is

    [Matches r s c c']: the pattern [r] matches exactly the text [s] and
    turns the captures [c] into [c'].  The matcher [run] is sound and
    complete for it. *)

Inductive Matches : regex → string → captures → captures → Prop :=
| M_Empty c : Matches Empty "" c c
| M_Chr a c : Matches (Chr a) (String a "") c c
| M_Class p a c : p a = true → Matches (Class p) (String a "") c c
| M_Seq r1 r2 s1 s2 c c1 c2 :
    Matches r1 s1 c c1 → Matches r2 s2 c1 c2 →
    Matches (Seq r1 r2) (s1 +:+ s2) c c2
| M_AltL r1 r2 s c c' : Matches r1 s c c' → Matches (Alt r1 r2) s c c'
| M_AltR r1 r2 s c c' : Matches r2 s c c' → Matches (Alt r1 r2) s c c'
| M_Star0 r c : Matches (Star r) "" c c
| M_StarS r s1 s2 c c1 c2 :
    s1 ≠ "" → Matches r s1 c c1 → Matches (Star r) s2 c1 c2 →
    Matches (Star r) (s1 +:+ s2) c c2
| M_OptNone r c : Matches (Opt r) "" c c
| M_OptSome r s c c' : s ≠ "" → Matches r s c c' → Matches (Opt r) s c c'
| M_Group n r s c c' :
    Matches r s c c' → Matches (Group n r) s c (<[n := s]> c').

(** A matcher [m] is sound for [r] when each of its successes splits the
    input into a match of [r] and a rest on which the continuation gave that
    result; it is complete when it succeeds as soon as [r] matches a prefix
    after which the continuation succeeds. *)
Definition sound_at {R : Type}
    (m : string → captures → cont R → option R) (r : regex) : Prop :=
  ∀ s c k v, m s c k = Some v →
    ∃ s1 s2 c', s = s1 +:+ s2 ∧ Matches r s1 c c' ∧ k s2 c' = Some v.

Definition complete_at {R : Type}
    (m : string → captures → cont R → option R) (r : regex) : Prop :=
  ∀ s1 c c', Matches r s1 c c' →
    ∀ s2 k, is_Some (k s2 c') → is_Some (m (s1 +:+ s2) c k).

End Regex.

(** ** The handler's regular expressions *)

Import Regex.

Fixpoint seqs (rs : list regex) : regex :=
  match rs with
  | [] => Empty
  | r :: rs' => Seq r (seqs rs')
  end.

(** [TWITTER_URL_MATCH]: the domain [twitter] or [x] (group 1), [.com/],
    an optional [#!/], the handle [\w+] (group 2), [/status], an optional
    [es], [/], the digits [\d+] (group 3), and an optional suffix made of
    [/] and the rest of the line. *)
Definition TWITTER_URL_MATCH : regex :=
  seqs [ Group 1 (Alt (lits "twitter") (lits "x"));
         lits ".com/";
         Opt (lits "#!/");
         Group 2 (Plus (Class is_word));
         lits "/status";
         Opt (lits "es");
         Chr "/";
         Group 3 (Plus (Class is_digit));
         Opt (Seq (Chr "/") (Star (Class is_dot))) ].

(** [/http\S+/] *)
Definition HTTP_URL : regex := Seq (lits "http") (Plus (Class is_non_space)).

(** [/\/([^/]+)\/status\/(\d+)/], the pattern of the in-page script. *)
Definition HREF_STATUS : regex :=
  seqs [ Chr "/";
         Group 1 (Plus (Class is_not_slash));
         lits "/status/";
         Group 2 (Plus (Class is_digit)) ].

(** ** Data of the Twitter API (the interfaces of [twitter-handler.ts]) *)

Module User.
Record t : Type := mk {
  id : string;
  name : string;
  profile_image_url : string;
  username : string
}.
End User.

Module Media.
Record t : Type := mk {
  preview_image_url : string;
  type : string;
  url : string;
  media_key : string
}.
End Media.

Module EntityUrl.
Record t : Type := mk {
  url : string;
  expanded_url : string;
  display_url : string
}.
End EntityUrl.

Module ReferencedTweet.
Record t : Type := mk {
  type : string;
  id : string
}.
End ReferencedTweet.

(** A location of the object store: arrays are objects, held by reference. *)
Abbreviation loc := nat.

(** [TweetIncludes]: [users] and [media] are references to arrays. *)
Module TweetIncludes.
Record t : Type := mk {
  users : loc;
  media : option loc
}.
End TweetIncludes.

(** [TweetData]; [attachments] is the list of media keys when present. *)
Module TweetData.
Record t : Type := mk {
  author_id : string;
  text : string;
  entities_urls : list EntityUrl.t;
  created_at : string;
  referenced_tweets : list ReferencedTweet.t;
  conversation_id : string;
  attachments : option (list string)
}.
End TweetData.

Module Tweet.
Record t : Type := mk {
  data : TweetData.t;
  includes : TweetIncludes.t
}.
End Tweet.

Module Tweets.
Record t : Type := mk {
  data : list TweetData.t;
  includes : TweetIncludes.t;
  meta_result_count : Z
}.
End Tweets.

Module EmbedTweet.
Record t : Type := mk {
  author_name : string;
  author_url : string;
  cache_age : string;
  height : Z;
  html : string;
  provider_name : string;
  provider_url : string;
  type : string;
  url : string;
  version : string;
  width : Z
}.
End EmbedTweet.

(** The body of a [Tweets] answer as it travels: the HTTP client turns it
    into fresh objects of the store. *)
Module TweetsBody.
Record t : Type := mk {
  data : list TweetData.t;
  users : list User.t;
  media : option (list Media.t);
  result_count : Z
}.
End TweetsBody.

(** [PreHandleResult] of the content-handler protocol. *)
Module PreHandleResult.
Record t : Type := mk {
  content : string;
  url : string;
  title : string
}.
End PreHandleResult.

(** ** The page seen by the in-page script *)

Module Element.
Record t : Type := mk {
  tagName : string;
  href : option string          (* [getAttribute('href')] *)
}.
End Element.

Module TimeNode.
Record t : Type := mk {
  parentElement : option Element.t
}.
End TimeNode.

(** A [div[dir]] node: the tag name and the inner HTML of its first child,
    when it has one. *)
Module DivNode.
Record t : Type := mk {
  children0 : option (string * string)
}.
End DivNode.

(** The document: the [div[dir]] nodes when the script starts, and the
    [time] nodes it finds afterwards, which depend on whether the
    [Show replies] button was clicked. *)
Module Document.
Record t : Type := mk {
  divs_with_dir : list DivNode.t;
  time_nodes : bool → list TimeNode.t
}.
End Document.

(** ** Exceptions, events, the world *)

Inductive exn : Type :=
| Error (message : string)        (* [throw new Error(message)] *)
| TypeError (message : string)    (* thrown by a built-in *)
| Rejected (reason : string).     (* a rejection by the HTTP client, the
                                     browser or the mailer *)

Module MailData.
Record t : Type := mk {
  to : string;
  subject : string;
  text : string;
  from : string
}.
End MailData.

Inductive event : Type :=
| HttpGet (url : string) (headers : list (string * string))
| ConsoleLog (label : string)
| ConsoleError (label : string)
| LoggerInfo (message : string)
| CreateIncognitoBrowserContext
| NewPage
| SetViewport (width height : Z)
| Goto (url : string) (timeout : Z)
| Evaluate
| Click
| WaitFor (ms : Z)
| ContextClose
| SendEmail (mail : MailData.t).

Record Store : Type := mkStore {
  users_arrays : gmap loc (list User.t);
  media_arrays : gmap loc (list Media.t);
  next_loc : loc
}.

Record World : Type := mkWorld {
  trace : list event;
  store : Store
}.

Definition empty_store : Store := mkStore ∅ ∅ 0.
Definition empty_world : World := mkWorld [] empty_store.

(** The headless browser handed to the scrape: which of its operations
    reject, and the document the script runs on. *)
Module Browser.
Record t : Type := mk {
  createIncognitoBrowserContext : option exn;
  newPage : option exn;
  setViewport : option exn;
  goto : string → option exn;
  evaluate : option exn;
  document : Document.t;
  close : option exn
}.
End Browser.

(** What [new URL(_)] exposes to [parseUnsubscribeMailTo]. *)
Module URL.
Record t : Type := mk {
  search : string;
  searchParams_get : string → option string
}.
End URL.

(** The environment: configuration and the answers of the platform. *)
Record Env : Type := mkEnv {
  TWITTER_BEARER_TOKEN : option string;   (* [process.env.TWITTER_BEARER_TOKEN] *)
  http_get_tweets : string → list (string * string) → exn + TweetsBody.t;
  http_get_embed : string → exn + EmbedTweet.t;
  (** [parseHTML(html).document.querySelector(selector)?.textContent] *)
  querySelector_textContent : string → string → option string;
  (** [new URL(input)]; [None] when the constructor throws. *)
  new_URL : string → option URL.t;
  sendEmail : MailData.t → exn + bool
}.

(** ** The monad of effectful code *)

Definition M (A : Type) : Type := World → (exn + A) * World.

Definition ret {A} (a : A) : M A := fun w => (inr a, w).

Definition throw {A} (e : exn) : M A := fun w => (inl e, w).

Definition bind {A B} (m : M A) (k : A → M B) : M B :=
  fun w =>
    match m w with
    | (inr a, w') => k a w'
    | (inl e, w') => (inl e, w')
    end.

Notation "'let*' x ':=' m 'in' k" := (bind m (fun x => k))
  (at level 10, x name, m at level 100, k at level 200, only parsing).

Definition emit (e : event) : M unit :=
  fun w => (inr tt, mkWorld (trace w ++ [e]) (store w)).

(** An external operation that resolves or rejects. *)
Definition settle (outcome : option exn) : M unit :=
  match outcome with
  | None => ret tt
  | Some e => throw e
  end.

Definition lift {A} (r : exn + A) : M A :=
  match r with
  | inr a => ret a
  | inl e => throw e
  end.

(** Run [m] and hand back how it ended instead of throwing. *)
Definition attempt {A} (m : M A) : M (exn + A) :=
  fun w => let '(r, w') := m w in (inr r, w').

(** [try { body } catch (error) { handler }] *)
Definition try_catch {A} (body : M A) (handler : exn → M A) : M A :=
  fun w =>
    match body w with
    | (inr a, w') => (inr a, w')
    | (inl e, w') => handler e w'
    end.

(** [try { body } finally { finalizer }]: the finalizer always runs; when it
    throws, its exception replaces the outcome of the body. *)
Definition try_finally {A} (body : M A) (finalizer : M unit) : M A :=
  fun w =>
    let '(r, w') := body w in
    match finalizer w' with
    | (inr _, w'') => (r, w'')
    | (inl e, w'') => (inl e, w'')
    end.

Definition alloc_users (l : list User.t) : M loc :=
  fun w =>
    let st := store w in
    (inr (next_loc st),
     mkWorld (trace w)
       (mkStore (<[next_loc st := l]> (users_arrays st)) (media_arrays st)
          (S (next_loc st)))).

Definition alloc_media (l : list Media.t) : M loc :=
  fun w =>
    let st := store w in
    (inr (next_loc st),
     mkWorld (trace w)
       (mkStore (users_arrays st) (<[next_loc st := l]> (media_arrays st))
          (S (next_loc st)))).

Definition read_users (st : Store) (l : loc) : list User.t :=
  default [] (users_arrays st !! l).

Definition read_media (st : Store) (l : loc) : list Media.t :=
  default [] (media_arrays st !! l).

Definition get_store : M Store := fun w => (inr (store w), w).

(** [!value] on a string that may be undefined. *)
Definition falsy (v : option string) : bool :=
  match v with
  | None => true
  | Some s => String.eqb s ""
  end.

(** ** [twitter-handler.ts] *)

(** [encodeURIComponent] on code units 0..255: the unreserved characters are
    kept, any other is replaced by the percent-encoded bytes of its UTF-8
    form. *)
Definition uri_unreserved (a : ascii) : bool :=
  in_range 65 90 a || in_range 97 122 a || in_range 48 57 a ||
  Str.includes_char a "-_.!~*'()".

Definition hex_digit (n : N) : ascii :=
  default "0"%char (String.get (N.to_nat n) "0123456789ABCDEF").

Definition percent (byte : N) : string :=
  String "%" (String (hex_digit (byte / 16)) (String (hex_digit (byte mod 16)) "")).

Definition encode_unit (a : ascii) : string :=
  if uri_unreserved a then String a ""
  else if (code a <? 128)%N then percent (code a)
  else percent (192 + code a / 64) +:+ percent (128 + code a mod 64).

Fixpoint encodeURIComponent (s : string) : string :=
  match s with
  | EmptyString => EmptyString
  | String a s' => encode_unit a +:+ encodeURIComponent s'
  end.

Definition MAX_THREAD_DEPTH : N := 100.

Definition getTweetFields : string :=
  let TWEET_FIELDS :=
    "&tweet.fields=attachments,author_id,conversation_id,created_at," +:+
    "entities,geo,in_reply_to_user_id,lang,possibly_sensitive,public_metrics,referenced_tweets," +:+
    "source,withheld" in
  let EXPANSIONS := "&expansions=author_id,attachments.media_keys" in
  let USER_FIELDS :=
    "&user.fields=created_at,description,entities,location,pinned_tweet_id,profile_image_url,protected,public_metrics,url,verified,withheld" in
  let MEDIA_FIELDS :=
    "&media.fields=duration_ms,height,preview_image_url,url,media_key,public_metrics,width" in
  TWEET_FIELDS +:+ EXPANSIONS +:+ USER_FIELDS +:+ MEDIA_FIELDS.

Definition bearer_headers (token : string) : list (string * string) :=
  [("Authorization", "Bearer " +:+ token); ("redirect", "follow")].

(** [axios.get<Tweets>(url, { headers })]: the request is observable; the
    answer becomes fresh objects.  The URL is recorded as the text handed
    to [new URL]. *)
Definition axios_get_tweets (env : Env) (url : string)
    (headers : list (string * string)) : M Tweets.t :=
  let* _ := emit (HttpGet url headers) in
  let* body := lift (http_get_tweets env url headers) in
  let* users := alloc_users (TweetsBody.users body) in
  let* media :=
    match TweetsBody.media body with
    | None => ret None
    | Some l => let* m := alloc_media l in ret (Some m)
    end in
  ret (Tweets.mk (TweetsBody.data body) (TweetIncludes.mk users media)
         (TweetsBody.result_count body)).

Definition axios_get_embed (env : Env) (url : string) : M EmbedTweet.t :=
  let* _ := emit (HttpGet url []) in
  lift (http_get_embed env url).

Definition recent_search_url (conversationId : string) : string :=
  let BASE_ENDPOINT := "https://api.twitter.com/2/tweets/search/recent" in
  BASE_ENDPOINT +:+ "?query=" +:+
  encodeURIComponent ("conversation_id:" +:+ conversationId) +:+
  getTweetFields +:+ "&max_results=" +:+ pretty MAX_THREAD_DEPTH.

(** unroll recent tweet thread *)
Definition getTweetThread (env : Env) (conversationId : string) : M Tweets.t :=
  let apiUrl := recent_search_url conversationId in
  if falsy (TWITTER_BEARER_TOKEN env) then
    throw (Error "No Twitter bearer token found")
  else
    axios_get_tweets env apiUrl
      (bearer_headers (default "" (TWITTER_BEARER_TOKEN env))).

Definition embed_url (url : string) : string :=
  let BASE_ENDPOINT := "https://publish.twitter.com/oembed" in
  BASE_ENDPOINT +:+ "?url=" +:+ encodeURIComponent url.

Definition getEmbedTweet (env : Env) (url : string) : M EmbedTweet.t :=
  axios_get_embed env (embed_url url).

Definition tweets_by_ids_url (ids : list string) : string :=
  let BASE_ENDPOINT := "https://api.twitter.com/2/tweets?ids=" in
  BASE_ENDPOINT +:+ Str.join ids +:+ getTweetFields.

Definition getTweetsByIds (env : Env) (ids : list string) : M Tweets.t :=
  let apiUrl := tweets_by_ids_url ids in
  if falsy (TWITTER_BEARER_TOKEN env) then
    throw (Error "No Twitter bearer token found")
  else
    axios_get_tweets env apiUrl
      (bearer_headers (default "" (TWITTER_BEARER_TOKEN env))).

Definition titleForTweet (author text : string) : string :=
  author +:+ " on X: " +:+ replace_first_empty HTTP_URL text.

Definition tweetIdFromStatusUrl (url : string) : option string :=
  match_group TWITTER_URL_MATCH url 2.

(** The media of the answer whose key is among the attachments of [t]. *)
Definition media_of (t : TweetData.t) (all : list Media.t) : list Media.t :=
  List.filter
    (fun m =>
       match TweetData.attachments t with
       | Some media_keys => bool_decide (Media.media_key m ∈ media_keys)
       | None => false
       end) all.

(** The loop of [getTweetsFromResponse]: [tweets] is the array built so
    far.  Each tweet gets a fresh [media] array (when the answer has media
    at all) and the [users] array of the answer itself. *)
Fixpoint getTweetsFromResponse_loop (response : Tweets.t)
    (data : list TweetData.t) (tweets : list Tweet.t) : M (list Tweet.t) :=
  match data with
  | [] => ret tweets
  | t :: rest =>
      let* media :=
        match TweetIncludes.media (Tweets.includes response) with
        | None => ret None
        | Some all =>
            let* st := get_store in
            let* m := alloc_media (media_of t (read_media st all)) in
            ret (Some m)
        end in
      let tweet :=
        Tweet.mk t
          (TweetIncludes.mk (TweetIncludes.users (Tweets.includes response))
             media) in
      getTweetsFromResponse_loop response rest (tweets ++ [tweet])
  end.

Definition getTweetsFromResponse (response : Tweets.t) : M (list Tweet.t) :=
  getTweetsFromResponse_loop response (Tweets.data response) [].

(** *** The scrape *)

(** The first [div[dir]] whose first child is a [SPAN] reading
    [Show replies]. *)
Definition showRepliesButton (doc : Document.t) : option DivNode.t :=
  List.find
    (fun node =>
       match DivNode.children0 node with
       | Some (_, innerHTML) => String.eqb innerHTML "Show replies"
       | None => false
       end)
    (List.filter
       (fun node =>
          match DivNode.children0 node with
          | Some (tagName, _) => String.eqb tagName "SPAN"
          | None => false
          end)
       (Document.divs_with_dir doc)).

(** One turn of the loop over the [time] nodes: the identifier pushed for
    this node, if any. *)
Definition id_of_time_node (author : string) (timeNode : TimeNode.t)
  : option string :=
  match TimeNode.parentElement timeNode with
  | None => None
  | Some timeContainerAnchor =>
      if String.eqb (Element.tagName timeContainerAnchor) "SPAN" then None
      else
        match Element.href timeContainerAnchor with
        | None => None
        | Some href =>
            if String.eqb href "" then None
            else
              (* Get the tweet id and username from the href *)
              match exec HREF_STATUS href with
              | None => None
              | Some m =>
                  match groups m !! 2, groups m !! 1 with
                  | Some id, Some username =>
                      (* skip non-author replies *)
                      if String.eqb username author then Some id else None
                  | _, _ => None
                  end
              end
        end
  end.

Fixpoint collect_ids (author : string) (timeNodes : list TimeNode.t)
    (ids : list string) : list string :=
  match timeNodes with
  | [] => ids
  | timeNode :: rest =>
      match id_of_time_node author timeNode with
      | Some id => collect_ids author rest (ids ++ [id])
      | None => collect_ids author rest ids
      end
  end.

(** The function evaluated in the page. *)
Definition page_script (doc : Document.t) (author : string) : M (list string) :=
  let* clicked :=
    match showRepliesButton doc with
    | Some _ =>
        let* _ := emit Click in
        let* _ := emit (WaitFor 2000) in
        ret true
    | None => ret false
    end in
  let timeNodes := Document.time_nodes doc clicked in
  ret (collect_ids author timeNodes []).

(** Get tweets(even older than 7 days) using puppeteer.

    [context] is assigned by the first statement of the [try] block, so
    the [finally] block closes it exactly when that statement resolved. *)
Definition getTweetIds (browser : Browser.t) (tweetId author : string)
  : M (list string) :=
  let pageURL := "https://twitter.com/" +:+ author +:+ "/status/" +:+ tweetId in
  let* context :=
    attempt (let* _ := emit CreateIncognitoBrowserContext in
             settle (Browser.createIncognitoBrowserContext browser)) in
  try_finally
    (try_catch
       (let* _ := lift context in
        let* _ := emit NewPage in
        let* _ := settle (Browser.newPage browser) in
        (* deviceScaleFactor = 0.2 = 2/10 *)
        let height := (2000 * 10 / 2)%Z in
        let width := (1700 * 10 / 2)%Z in
        let* _ := emit (SetViewport width height) in
        let* _ := settle (Browser.setViewport browser) in
        let* _ := emit (Goto pageURL 60000) in
        let* _ := settle (Browser.goto browser pageURL) in
        let* _ := emit Evaluate in
        let* _ := settle (Browser.evaluate browser) in
        page_script (Browser.document browser) author)
       (fun error =>
          let* _ := emit (ConsoleError "Error getting tweets") in
          ret []))
    (match context with
     | inr _ =>
         let* _ := emit ContextClose in
         settle (Browser.close browser)
     | inl _ => ret tt
     end).

Definition getOldTweets (env : Env) (browser : Browser.t)
    (conversationId username : string) : M (list Tweet.t) :=
  let* tweetIds := getTweetIds browser conversationId username in
  if Nat.eqb (length tweetIds) 0 then ret []
  else
    let* response := getTweetsByIds env tweetIds in
    getTweetsFromResponse response.

Definition getRecentTweets (env : Env) (conversationId : string)
  : M (list Tweet.t) :=
  let* thread := getTweetThread env conversationId in
  if (Tweets.meta_result_count thread =? 0)%Z then ret []
  else
    (* tweets are in reverse chronological order in the thread *)
    let* tweets := getTweetsFromResponse thread in
    ret (reverse tweets).

(** *** The handler *)

Definition shouldPreHandle (url : string) : bool :=
  test TWITTER_URL_MATCH url.

Definition dq : string := String (ascii_of_nat 34) EmptyString.
Definition nl : string := String (ascii_of_nat 10) EmptyString.

Definition meta_tag (property content : string) : string :=
  "            <meta property=" +:+ dq +:+ property +:+ dq +:+
  " content=" +:+ dq +:+ content +:+ dq +:+ " />".

Definition preHandle (env : Env) (url : string) : M PreHandleResult.t :=
  let* embedTweet := getEmbedTweet env url in
  let* _ := emit (ConsoleLog "embedTweet") in
  let html := EmbedTweet.html embedTweet in
  let tweetText := default "" (querySelector_textContent env html "p") in
  let title := titleForTweet (EmbedTweet.author_name embedTweet) tweetText in
  let publisedDate :=
    default ""
      (querySelector_textContent env html
         ("a[href*=" +:+ dq +:+ "/status/" +:+ dq +:+ "]")) in
  let content :=
    String.concat nl
      [ "";
        "      <html>";
        "          <head>";
        meta_tag "og:site_name" "X (formerly Twitter)";
        meta_tag "og:type" "tweet";
        meta_tag "dc:creator" (EmbedTweet.author_name embedTweet);
        meta_tag "twitter:description" tweetText;
        meta_tag "article:published_time" publisedDate;
        "          </head>";
        "          <body>";
        "            <div>";
        "              " +:+ EmbedTweet.html embedTweet;
        "            </div>";
        "          </body>";
        "      </html>" ] in
  ret (PreHandleResult.mk content url title).

(** ** The subscription service: unsubscribing by mail *)

Definition UNSUBSCRIBE_EMAIL_TEXT : string :=
  "This message was automatically generated by Omnivore.".

(** [s.replace(pattern, '')] for a string pattern: the first occurrence of
    [pattern] is removed (an empty pattern occurs at position 0). *)
Definition remove_first (pattern s : string) : string :=
  match String.index 0 pattern s with
  | Some i => Str.take i s +:+ Str.drop (i + String.length pattern) s
  | None => s
  end.

Module MailTo.
Record t : Type := mk {
  to : string;
  subject : string
}.
End MailTo.

Definition parseUnsubscribeMailTo (env : Env) (unsubscribeMailTo : string)
  : exn + MailTo.t :=
  match new_URL env ("mailto://" +:+ unsubscribeMailTo) with
  | None => inl (TypeError "Invalid URL")
  | Some parsed =>
      let subject :=
        match URL.searchParams_get parsed "subject" with
        | Some v => if String.eqb v "" then "Unsubscribe" else v
        | None => "Unsubscribe"
        end in
      let to := remove_first (URL.search parsed) unsubscribeMailTo in
      (* validate email address *)
      if String.eqb to "" || negb (Str.includes_char "@" to) then
        inl (Error ("Invalid unsubscribe email address: " +:+ unsubscribeMailTo))
      else inr (MailTo.mk to subject)
  end.

Definition send_mail (env : Env) (mail : MailData.t) : M bool :=
  let* _ := emit (SendEmail mail) in
  lift (sendEmail env mail).

Definition sendUnsubscribeEmail (env : Env)
    (unsubscribeMailTo newsletterEmail : string) : M bool :=
  try_catch
    ((* get subject from unsubscribe email address if exists *)
     let* parsed := lift (parseUnsubscribeMailTo env unsubscribeMailTo) in
     let* sent :=
       send_mail env
         (MailData.mk (MailTo.to parsed) (MailTo.subject parsed)
            UNSUBSCRIBE_EMAIL_TEXT newsletterEmail) in
     if negb sent then
       let* _ :=
         emit (LoggerInfo
                 ("Failed to send unsubscribe email: " +:+ unsubscribeMailTo)) in
       ret false
     else ret true)
    (fun error =>
       let* _ := emit (LoggerInfo "Failed to send unsubscribe email") in
       ret false).

(** ** [twitter-handler.ts]: the lookup of one tweet *)

(** The body of a [Tweet] answer as it travels. *)
Module TweetBody.
Record t : Type := mk {
  data : TweetData.t;
  users : list User.t;
  media : option (list Media.t)
}.
End TweetBody.

(** The text [getTweetById] hands to [new URL]: the identifier is put in
    the path as it comes, without encoding. *)
Definition tweet_by_id_url (id : string) : string :=
  let BASE_ENDPOINT := "https://api.twitter.com/2/tweets/" in
  BASE_ENDPOINT +:+ id +:+ "?" +:+ getTweetFields.

(** [getTweetById].  The identifier is not encoded, so the URL that is
    requested is not the text that was put together but what the platform
    makes of it: [toString input] is [new URL(input).toString()], the
    serialisation of the parsed URL (dot segments resolved, characters
    percent-encoded), and [None] when [new URL] throws.  The URL is built
    by the first statement, before the credential is looked at.
    [http_get_tweet] is what [axios.get<Tweet>] answers. *)
Definition getTweetById (env : Env)
    (toString : string → option string)
    (http_get_tweet : string → list (string * string) → exn + TweetBody.t)
    (id : string) : M Tweet.t :=
  match toString (tweet_by_id_url id) with
  | None => throw (TypeError "Invalid URL")
  | Some apiUrl =>
      if falsy (TWITTER_BEARER_TOKEN env) then
        throw (Error "No Twitter bearer token found")
      else
        let headers := bearer_headers (default "" (TWITTER_BEARER_TOKEN env)) in
        let* _ := emit (HttpGet apiUrl headers) in
        let* body := lift (http_get_tweet apiUrl headers) in
        let* users := alloc_users (TweetBody.users body) in
        let* media :=
          match TweetBody.media body with
          | None => ret None
          | Some l => let* m := alloc_media l in ret (Some m)
          end in
        ret (Tweet.mk (TweetBody.data body) (TweetIncludes.mk users media))
  end.

(** ** The bulk action mutation of the web client *)

Inductive BulkAction : Type := ARCHIVE | DELETE.

(** [BulkActionResponse]; [bulkAction] is the [success] flag of
    [BulkActionResponseData] when present. *)
Module BulkActionResponse.
Record t : Type := mk {
  errorCodes : option (list string);
  bulkAction : option bool
}.
End BulkActionResponse.

Definition bulkAction_mutation : string :=
  String.concat nl
    [ "";
      "    mutation {";
      "      bulkAction(action: $action, query: $query) {";
      "        ... on BulkActionSuccess {";
      "          success";
      "        }";
      "        ... on BulkActionError {";
      "          errorCodes";
      "        }";
      "      }";
      "    }";
      "  " ].

Definition exn_message (e : exn) : string :=
  match e with
  | Error message => message
  | TypeError message => message
  | Rejected reason => reason
  end.

(** [bulkActionMutation]; [gqlFetcher] is the fetcher of the network
    helpers: what it answers for a mutation and its variables ([None] for
    [undefined]). *)
Definition bulkActionMutation
    (gqlFetcher : string → BulkAction → string
                  → exn + option BulkActionResponse.t)
    (action : BulkAction) (query : string) : M bool :=
  let mutation := bulkAction_mutation in
  let* _ := emit (ConsoleLog "bulkActionbulkActionMutation") in
  try_catch
    (let* response := lift (gqlFetcher mutation action query) in
     let* _ := emit (ConsoleLog "response") in
     let data := response in
     ret (match data with
          | Some d => default false (BulkActionResponse.bulkAction d)
          | None => false
          end))
    (fun error =>
       let* _ := emit (ConsoleError (exn_message error)) in
       ret false).

(** ** The subscription service: unsubscribing and saving

    The entities and the enumerations come from modules of the service
    that declare data only; they are given here with the fields and the
    members the code below reads. *)

Inductive SubscriptionType : Type :=
| Newsletter
| OtherSubscriptionType (name : string).

Inductive SubscriptionStatus : Type :=
| Active
| Unsubscribed
| OtherSubscriptionStatus (name : string).

Module NewsletterEmail.
Record t : Type := mk {
  id : string;
  address : string;
  user_id : string              (* [user.id] *)
}.
End NewsletterEmail.

Module Subscription.
Record t : Type := mk {
  id : string;
  type : SubscriptionType;
  unsubscribeMailTo : option string;
  newsletterEmail : option NewsletterEmail.t
}.
End Subscription.

(** [subscriptionData] of [saveSubscription]. *)
Module SubscriptionData.
Record t : Type := mk {
  unsubscribeHttpUrl : option string;
  unsubscribeMailTo : option string;
  icon : option string;
  lastFetchedAt : string
}.
End SubscriptionData.

Module SaveSubscriptionInput.
Record t : Type := mk {
  userId : string;
  name : string;
  newsletterEmailId : string;
  unsubscribeMailTo : option string;
  unsubscribeHttpUrl : option string;
  icon : option string
}.
End SaveSubscriptionInput.

(** What the service does besides the events of the mail layer. *)
Inductive service_event : Type :=
| Mail (e : event)
| TimedGet (url : string) (timeout : Z)
| FindSubscriptions (userId newsletterEmailId : string)
| UpdateStatus (id : string) (status : SubscriptionStatus)
| FindOneByName (name userId : string)
| UpdateSubscription (id userId : string) (data : SubscriptionData.t)
| SaveSubscription (data : SubscriptionData.t)
    (name newsletterEmailId userId : string) (type : SubscriptionType).

(** The answers of the collaborators of the service: the HTTP client, the
    repository of subscriptions (inside its transactions), the clock. *)
Module Repository.
Record t : Type := mk {
  axios_get : string → Z → option exn;
  find : string → string → exn + list Subscription.t;
  update_status : string → SubscriptionStatus → option exn;
  findOne : string → string → exn + option Subscription.t;
  update : string → string → SubscriptionData.t → option exn;
  save : SubscriptionData.t → string → string → string → SubscriptionType
         → exn + Subscription.t;
  new_Date : string
}.
End Repository.

Definition Svc (A : Type) : Type :=
  list service_event → (exn + A) * list service_event.

Definition sret {A} (a : A) : Svc A := fun tr => (inr a, tr).

Definition sthrow {A} (e : exn) : Svc A := fun tr => (inl e, tr).

Definition sbind {A B} (m : Svc A) (k : A → Svc B) : Svc B :=
  fun tr =>
    match m tr with
    | (inr a, tr') => k a tr'
    | (inl e, tr') => (inl e, tr')
    end.

Notation "'let+' x ':=' m 'in' k" := (sbind m (fun x => k))
  (at level 10, x name, m at level 100, k at level 200, only parsing).

Definition semit (e : service_event) : Svc unit :=
  fun tr => (inr tt, tr ++ [e]).

Definition ssettle (outcome : option exn) : Svc unit :=
  match outcome with
  | None => sret tt
  | Some e => sthrow e
  end.

Definition slift {A} (r : exn + A) : Svc A :=
  match r with
  | inr a => sret a
  | inl e => sthrow e
  end.

Definition stry_catch {A} (body : Svc A) (handler : exn → Svc A) : Svc A :=
  fun tr =>
    match body tr with
    | (inr a, tr') => (inr a, tr')
    | (inl e, tr') => handler e tr'
    end.

(** A computation of the mail layer inside the service: its events join
    the trace of the service. *)
Definition mail_layer {A} (m : M A) : Svc A :=
  fun tr =>
    let '(r, w) := m empty_world in
    (r, tr ++ (Mail <$> trace w)).

Definition logger_info (message : string) : Svc unit :=
  semit (Mail (LoggerInfo message)).

Definition sendUnsubscribeHttpRequest (repo : Repository.t) (url : string)
  : Svc bool :=
  stry_catch
    (let+ _ := semit (TimedGet url 5000) in
     let+ _ := ssettle (Repository.axios_get repo url 5000) in
     sret true)
    (fun error =>
       let+ _ :=
         match error with
         | Rejected message =>     (* [axios.isAxiosError(error)] *)
             logger_info
               ("Failed to send unsubscribe http request: " +:+ message)
         | _ => logger_info "Failed to send unsubscribe http request"
         end in
       sret false).

Definition saveSubscription (repo : Repository.t)
    (input : SaveSubscriptionInput.t) : Svc string :=
  let subscriptionData :=
    SubscriptionData.mk
      (SaveSubscriptionInput.unsubscribeHttpUrl input)
      (SaveSubscriptionInput.unsubscribeMailTo input)
      (SaveSubscriptionInput.icon input)
      (Repository.new_Date repo) in
  let name := SaveSubscriptionInput.name input in
  let userId := SaveSubscriptionInput.userId input in
  let+ _ := semit (FindOneByName name userId) in
  let+ existingSubscription := slift (Repository.findOne repo name userId) in
  let+ result :=
    match existingSubscription with
    | Some existing =>
        (* update subscription if already exists *)
        let+ _ :=
          semit (UpdateSubscription (Subscription.id existing) userId
                   subscriptionData) in
        let+ _ :=
          ssettle (Repository.update repo (Subscription.id existing) userId
                     subscriptionData) in
        sret existing
    | None =>
        let newsletterEmailId := SaveSubscriptionInput.newsletterEmailId input in
        let+ _ :=
          semit (SaveSubscription subscriptionData name newsletterEmailId
                   userId Newsletter) in
        slift (Repository.save repo subscriptionData name newsletterEmailId
                 userId Newsletter)
    end in
  sret (Subscription.id result).

Definition is_newsletter (type : SubscriptionType) : bool :=
  match type with Newsletter => true | _ => false end.

Definition unsubscribe (env : Env) (repo : Repository.t)
    (subscription : Subscription.t) : Svc unit :=
  let+ _ :=
    (* unsubscribe from newsletter *)
    if is_newsletter (Subscription.type subscription) then
      match Subscription.unsubscribeMailTo subscription,
            Subscription.newsletterEmail subscription with
      | Some unsubscribeMailTo, Some newsletterEmail =>
          if String.eqb unsubscribeMailTo "" then sret tt
          else
            (* unsubscribe by sending email *)
            let+ sent :=
              mail_layer
                (sendUnsubscribeEmail env unsubscribeMailTo
                   (NewsletterEmail.address newsletterEmail)) in
            logger_info "Unsubscribe email sent"
      | _, _ => sret tt
      end
    else sret tt in
  let+ _ := semit (UpdateStatus (Subscription.id subscription) Unsubscribed) in
  ssettle (Repository.update_status repo (Subscription.id subscription)
             Unsubscribed).

(** The loop of [unsubscribeAll] over the subscriptions found. *)
Fixpoint unsubscribe_each (env : Env) (repo : Repository.t)
    (subscriptions : list Subscription.t) : Svc unit :=
  match subscriptions with
  | [] => sret tt
  | subscription :: rest =>
      let+ _ :=
        stry_catch (unsubscribe env repo subscription)
          (fun error => logger_info "Failed to unsubscribe") in
      unsubscribe_each env repo rest
  end.

Definition unsubscribeAll (env : Env) (repo : Repository.t)
    (newsletterEmail : NewsletterEmail.t) : Svc unit :=
  stry_catch
    (let userId := NewsletterEmail.user_id newsletterEmail in
     let id := NewsletterEmail.id newsletterEmail in
     let+ _ := semit (FindSubscriptions userId id) in
     let+ subscriptions := slift (Repository.find repo userId id) in
     unsubscribe_each env repo subscriptions)
    (fun error => logger_info "Failed to unsubscribe all").

(** * Properties named by the specification *)

(** The conversation-status URL shape: somewhere in the URL, the platform
    domain, [.com/], an optional legacy prefix [#!/], a handle, [/status]
    or [/statuses], [/] and digits.  What follows the digits is free. *)
Definition status_url_shape (url : string) : Prop :=
  ∃ pre domain legacy handle es digits rest,
    url = pre +:+ domain +:+ ".com/" +:+ legacy +:+ handle +:+ "/status"
              +:+ es +:+ "/" +:+ digits +:+ rest ∧
    (domain = "twitter" ∨ domain = "x") ∧
    (legacy = "" ∨ legacy = "#!/") ∧
    handle ≠ "" ∧ Str.forallb is_word handle = true ∧
    (es = "" ∨ es = "es") ∧
    digits ≠ "" ∧ Str.forallb is_digit digits = true.

(** A URL occurrence starts at the beginning of [s]: the text [http]
    followed by at least one character that is not white space. *)
Definition url_at (s : string) : bool :=
  match Str.strip_prefix "http" s with
  | Some (String a _) => is_non_space a
  | _ => false
  end.

(** [s] is empty or starts with white space. *)
Definition ends_url (s : string) : bool :=
  match s with
  | EmptyString => true
  | String a _ => is_white_space a
  end.

(** The events a computation adds to the trace. *)
Definition events_of {A : Type} (m : M A) (w : World) : list event :=
  drop (length (trace w)) (trace (m w).2).

(** A request of the Recency Search Fetcher. *)
Definition is_recent_search_request (e : event) : bool :=
  match e with
  | HttpGet url _ =>
      String.prefix "https://api.twitter.com/2/tweets/search/recent" url
  | _ => false
  end.

(** A step of the Scrape Fetcher or a request of the bulk resolution. *)
Definition is_scrape_event (e : event) : bool :=
  match e with
  | CreateIncognitoBrowserContext | NewPage | SetViewport _ _ | Goto _ _
  | Evaluate | Click | WaitFor _ | ContextClose => true
  | HttpGet url _ => String.prefix "https://api.twitter.com/2/tweets?ids=" url
  | _ => false
  end.

Definition uses_recent_path (tr : list event) : bool :=
  existsb is_recent_search_request tr.

Definition uses_scrape_path (tr : list event) : bool :=
  existsb is_scrape_event tr.

(** Some step of the [try] block of the scrape rejects. *)
Definition scrape_step_fails (browser : Browser.t) (pageURL : string) : Prop :=
  Browser.createIncognitoBrowserContext browser ≠ None ∨
  Browser.newPage browser ≠ None ∨
  Browser.setViewport browser ≠ None ∨
  Browser.goto browser pageURL ≠ None ∨
  Browser.evaluate browser ≠ None.

(** Releasing the browser context does not fail: either no context was
    created, or closing it resolves. *)
Definition release_succeeds (browser : Browser.t) : Prop :=
  Browser.createIncognitoBrowserContext browser ≠ None ∨
  Browser.close browser = None.

(** The posts of a thread, in its order. *)
Definition posts_of (ts : list Tweet.t) : list TweetData.t := Tweet.data <$> ts.

(** [created_at] is an ISO 8601 time stamp in UTC; such stamps are ordered
    in time as they are ordered as strings. *)
Definition created_le (a b : TweetData.t) : Prop :=
  String.le (TweetData.created_at a) (TweetData.created_at b).

(** Oldest first. *)
Definition ascending (posts : list TweetData.t) : Prop :=
  StronglySorted created_le posts.

(** Newest first, as the recency search answers. *)
Definition newest_first (posts : list TweetData.t) : Prop :=
  StronglySorted (flip created_le) posts.

(** The [users] arrays a thread refers to, each once, and the author
    records reachable through them. *)
Definition author_arrays (ts : list Tweet.t) : list loc :=
  remove_dups ((fun t => TweetIncludes.users (Tweet.includes t)) <$> ts).

Definition author_records (st : Store) (ts : list Tweet.t) : list User.t :=
  mjoin (read_users st <$> author_arrays ts).

(** Every step of the scrape resolves, the release included. *)
Definition scrape_succeeds (browser : Browser.t) (pageURL : string) : Prop :=
  Browser.createIncognitoBrowserContext browser = None ∧
  Browser.newPage browser = None ∧
  Browser.setViewport browser = None ∧
  Browser.goto browser pageURL = None ∧
  Browser.evaluate browser = None ∧
  Browser.close browser = None.

(** The [time] nodes the script reads: those of the page after the click
    on [Show replies] when there is such a button. *)
Definition scraped_time_nodes (doc : Document.t) : list TimeNode.t :=
  Document.time_nodes doc (bool_decide (is_Some (showRepliesButton doc))).

(** [s] is empty or starts with something else than a digit. *)
Definition ends_digits (s : string) : bool :=
  match s with
  | EmptyString => true
  | String a _ => negb (is_digit a)
  end.

Definition is_http_request (e : event) : bool :=
  match e with
  | HttpGet _ _ => true
  | _ => false
  end.

(** A character that [encodeURIComponent] can produce: an unreserved one
    or the percent sign. *)
Definition uri_safe (a : ascii) : bool := uri_unreserved a || Ascii.eqb a "%".

(** The events a computation of the service adds to its trace. *)
Definition service_events_of {A : Type} (m : Svc A) (tr : list service_event)
  : list service_event :=
  drop (length tr) (m tr).2.

(** The status updates asked of the repository, in order. *)
Definition status_updates (evs : list service_event)
  : list (string * SubscriptionStatus) :=
  omap (fun e => match e with
                 | UpdateStatus id status => Some (id, status)
                 | _ => None
                 end) evs.

Definition is_mail (e : service_event) : bool :=
  match e with Mail _ => true | _ => false end.

Definition is_send_email (e : event) : bool :=
  match e with SendEmail _ => true | _ => false end.

(** The subscription asks for a mail: it is a newsletter with a non-empty
    unsubscribe address and a newsletter email. *)
Definition wants_mail (subscription : Subscription.t) : bool :=
  is_newsletter (Subscription.type subscription) &&
  match Subscription.unsubscribeMailTo subscription,
        Subscription.newsletterEmail subscription with
  | Some unsubscribeMailTo, Some _ => negb (String.eqb unsubscribeMailTo "")
  | _, _ => false
  end.

(** * Example environments *)

(** An environment without credential, in which every service would
    answer. *)
Definition env_without_token : Env :=
  mkEnv None
    (fun _ _ => inr (TweetsBody.mk [] [] None 0))
    (fun _ => inl (Rejected "Request failed with status code 404"))
    (fun _ _ => None)
    (fun _ => None)
    (fun _ => inr true).



Definition anchor (href : string) : TimeNode.t :=
  TimeNode.mk (Some (Element.mk "A" (Some href))).

(** A thread page: two posts by the author around a reply by someone
    else, and no [Show replies] button. *)
Definition thread_page : Document.t :=
  Document.mk []
    (fun _ => [ anchor "/jack/status/30";
                anchor "/other/status/25";
                anchor "/jack/status/20" ]).

Definition working_browser : Browser.t :=
  Browser.mk None None None (fun _ => None) None thread_page None.


Definition jack_embed : EmbedTweet.t :=
  EmbedTweet.mk "Jack" "https://twitter.com/jack" "3153600000" 0
    "<blockquote><p>just setting up my twttr</p></blockquote>"
    "Twitter" "https://twitter.com" "rich"
    "https://twitter.com/jack/status/20" "1.0" 550.

(** An environment in which the credential is set and every service
    answers: the oEmbed service with a tweet by [Jack], the Twitter API
    with an empty body. *)
Definition env_all_services : Env :=
  mkEnv (Some "token")
    (fun _ _ => inr (TweetsBody.mk [] [] None 0))
    (fun _ => inr jack_embed)
    (fun _ selector =>
       if String.eqb selector "p" then Some "just setting up my twttr"
       else Some "March 21, 2006")
    (fun _ => None)
    (fun _ => inr true).

Definition post (author_id text created_at : string) : TweetData.t :=
  TweetData.mk author_id text [] created_at [] "20" None.

Definition post_20 : TweetData.t :=
  post "12" "just setting up my twttr" "2006-03-21T20:50:14.000Z".

Definition post_30 : TweetData.t :=
  post "12" "inviting coworkers" "2006-03-21T21:02:56.000Z".

Definition jack : User.t :=
  User.mk "12" "Jack" "https://pbs.twimg.com/jack.jpg" "jack".

(** The Twitter API answers with post [30] before post [20], the newer
    one first: the order of a recency search, and the order in which the
    scrape of [thread_page] asks for them. *)
Definition env_newer_first : Env :=
  mkEnv (Some "token")
    (fun _ _ => inr (TweetsBody.mk [post_30; post_20] [jack] None 2))
    (fun _ => inr jack_embed)
    (fun _ _ => None)
    (fun _ => None)
    (fun _ => inr true).

(** Answers already turned into objects: the [users] array sits at
    location 0 of the store. *)
Definition world_with_users (users : list User.t) : World :=
  mkWorld [] (mkStore {[ 0 := users ]} ∅ 1).

Definition response_of (data : list TweetData.t) : Tweets.t :=
  Tweets.mk data (TweetIncludes.mk 0 None) (Z.of_nat (length data)).

Definition tweet_of (data : TweetData.t) : Tweet.t :=
  Tweet.mk data (TweetIncludes.mk 0 None).

(** The answers of [new URL] on three inputs (and a refusal of anything
    else), with a mailer that accepts every message. *)
Definition example_new_URL (input : string) : option URL.t :=
  if String.eqb input "mailto://list@example.com?subject=Stop" then
    Some (URL.mk "?subject=Stop"
            (fun name => if String.eqb name "subject" then Some "Stop" else None))
  else if String.eqb input "mailto://list@example.com" then
    Some (URL.mk "" (fun _ => None))
  else if String.eqb input "mailto://unsubscribe" then
    Some (URL.mk "" (fun _ => None))
  else None.

Definition env_mail : Env :=
  mkEnv None
    (fun _ _ => inl (Rejected "Network Error"))
    (fun _ => inl (Rejected "Network Error"))
    (fun _ _ => None)
    example_new_URL
    (fun _ => inr true).

(** The credential is set and the Twitter API is down. *)
Definition env_api_down : Env :=
  mkEnv (Some "token")
    (fun _ _ => inl (Rejected "Request failed with status code 503"))
    (fun _ => inl (Rejected "Request failed with status code 503"))
    (fun _ _ => None)
    (fun _ => None)
    (fun _ => inr true).

(** An answer with two pictures, of which the post [post_with_picture]
    attaches the second. *)
Definition picture (media_key : string) : Media.t :=
  Media.mk "https://pbs.twimg.com/preview.jpg" "photo"
    "https://pbs.twimg.com/full.jpg" media_key.

Definition post_with_picture : TweetData.t :=
  TweetData.mk "12" "look" [] "2006-03-22T10:00:00.000Z" [] "20"
    (Some ["3_2"]).

Definition world_with_media : World :=
  mkWorld []
    (mkStore {[ 0 := [jack] ]} {[ 1 := [picture "3_1"; picture "3_2"] ]} 2).

Definition response_with_media : Tweets.t :=
  Tweets.mk [post_with_picture; post_20] (TweetIncludes.mk 0 (Some 1)) 2.

(** A repository that knows one subscription by the name [Weekly] and
    saves anything else under the id [sub-2]. *)
Definition weekly : Subscription.t :=
  Subscription.mk "sub-1" Newsletter (Some "list@example.com?subject=Stop")
    (Some (NewsletterEmail.mk "ne-1" "me@inbox.omnivore.app" "user-1")).

Definition example_repository : Repository.t :=
  Repository.mk
    (fun _ _ => None)
    (fun _ _ => inr [weekly])
    (fun _ _ => None)
    (fun name _ => inr (if String.eqb name "Weekly" then Some weekly else None))
    (fun _ _ _ => None)
    (fun _ _ _ _ type => inr (Subscription.mk "sub-2" type None None))
    "2023-10-02T12:00:00.000Z".

Definition weekly_input : SaveSubscriptionInput.t :=
  SaveSubscriptionInput.mk "user-1" "Weekly" "ne-1"
    (Some "list@example.com?subject=Stop") None None.

(** [new URL] percent-encodes the space of a query: the search string it
    reports is not in the input as such. *)
Definition env_mail_encoded : Env :=
  mkEnv None
    (fun _ _ => inl (Rejected "Network Error"))
    (fun _ => inl (Rejected "Network Error"))
    (fun _ _ => None)
    (fun input =>
       if String.eqb input "mailto://list@example.com?subject=Please stop" then
         Some (URL.mk "?subject=Please%20stop"
                 (fun name => if String.eqb name "subject"
                              then Some "Please stop" else None))
       else None)
    (fun _ => inr true).

(** * Facts about strings and about the matcher *)

Module StrFacts.
Import Str.

Lemma app_nil_r (s : string) : s +:+ "" = s.
Proof. induction s as [|a s IH]; simpl; [done | by rewrite IH]. Qed.

Lemma app_assoc (s1 s2 s3 : string) :
  (s1 +:+ s2) +:+ s3 = s1 +:+ (s2 +:+ s3).
Proof. induction s1 as [|a s1 IH]; simpl; [done | by rewrite IH]. Qed.

Lemma length_app (s1 s2 : string) :
  String.length (s1 +:+ s2) = String.length s1 + String.length s2.
Proof. induction s1 as [|a s1 IH]; simpl; [done | by rewrite IH]. Qed.

Lemma take_app_length (s1 s2 : string) :
  take (String.length s1) (s1 +:+ s2) = s1.
Proof. induction s1 as [|a s1 IH]; simpl; [by destruct s2 | by rewrite IH]. Qed.

Lemma existsb_app (p : ascii → bool) (s1 s2 : string) :
  existsb p (s1 +:+ s2) = existsb p s1 || existsb p s2.
Proof.
  induction s1 as [|a s1 IH]; simpl; [done|].
  by rewrite IH, orb_assoc.
Qed.

(** A run of [p]-characters followed by the end or by a non-[p] character
    is the span. *)
Lemma span_maximal (p : ascii → bool) (u v : string) :
  forallb p u = true →
  match v with EmptyString => True | String b _ => p b = false end →
  span p (u +:+ v) = (u, v).
Proof.
  intros Hu Hv. induction u as [|a u IH]; simpl in *.
  - destruct v as [|b v]; simpl; [done | by rewrite Hv].
  - apply andb_true_iff in Hu as [Ha Hu]. rewrite Ha, (IH Hu). done.
Qed.

Lemma existsb_take (p : ascii → bool) (n : nat) (s : string) :
  existsb p s = false → existsb p (take n s) = false.
Proof.
  revert s; induction n as [|n IH]; intros [|a s]; simpl; try done.
  intros H. apply orb_false_iff in H as [-> H]. by apply IH.
Qed.

Lemma existsb_drop (p : ascii → bool) (n : nat) (s : string) :
  existsb p s = false → existsb p (drop n s) = false.
Proof.
  revert s; induction n as [|n IH]; intros [|a s]; simpl; try done.
  intros H. apply orb_false_iff in H as [_ H]. by apply IH.
Qed.

End StrFacts.

(** Right-nest concatenations, computing through literal prefixes. *)
Ltac str_norm :=
  repeat first [rewrite StrFacts.app_assoc | progress cbn [String.append]].

Module RegexFacts.
Import Regex.

Lemma consumed_app (s1 s2 : string) : consumed (s1 +:+ s2) s2 = s1.
Proof.
  unfold consumed. rewrite StrFacts.length_app.
  replace (String.length s1 + String.length s2 - String.length s2)
    with (String.length s1) by lia.
  apply StrFacts.take_app_length.
Qed.

Lemma progress_app (s1 s2 : string) :
  progress (s1 +:+ s2) s2 = true ↔ s1 ≠ "".
Proof.
  unfold progress. rewrite StrFacts.length_app, Nat.ltb_lt.
  destruct s1; simpl; split; intros; try done; lia.
Qed.

Section Soundness.
Context {R : Type}.

Lemma star_loop_sound (r : regex) :
  sound_at (R:=R) (run r) r → ∀ fuel, sound_at (R:=R) (star_loop (run r) fuel) (Star r).
Proof.
  intros IH fuel. induction fuel as [|fuel IHf]; intros s c k v H; simpl in H.
  - exists "", s, c. split_and!; [done | constructor | done].
  - destruct (run r s c _) as [v0|] eqn:E.
    + injection H as ->.
      apply IH in E as (s1 & s2 & c1 & -> & Hm & Hk).
      destruct (progress (s1 +:+ s2) s2) eqn:Hp; [|done].
      apply progress_app in Hp.
      apply IHf in Hk as (t1 & t2 & c' & -> & Hm' & Hk).
      exists (s1 +:+ t1), t2, c'. rewrite StrFacts.app_assoc.
      split_and!; [done | by econstructor | done].
    + exists "", s, c. split_and!; [done | constructor | done].
Qed.

Lemma run_sound (r : regex) : sound_at (R:=R) (run r) r.
Proof.
  induction r as [|a|p|r1 IH1 r2 IH2|r1 IH1 r2 IH2|r IH|r IH|n r IH];
    intros s c k v H; [simpl in H..|idtac|simpl in H|simpl in H].
  - exists "", s, c. split_and!; [done | constructor | done].
  - destruct s as [|b s]; [done|].
    destruct (Ascii.eqb a b) eqn:E; [|done]. apply Ascii.eqb_eq in E as <-.
    exists (String a ""), s, c. split_and!; [done | constructor | done].
  - destruct s as [|b s]; [done|]. destruct (p b) eqn:E; [|done].
    exists (String b ""), s, c. split_and!; [done | by constructor | done].
  - apply IH1 in H as (s1 & s2 & c1 & -> & Hm1 & H).
    apply IH2 in H as (t1 & t2 & c2 & -> & Hm2 & H).
    exists (s1 +:+ t1), t2, c2. rewrite StrFacts.app_assoc.
    split_and!; [done | by econstructor | done].
  - destruct (run r1 s c k) as [v0|] eqn:E.
    + injection H as ->. apply IH1 in E as (s1 & s2 & c1 & -> & Hm & Hk).
      exists s1, s2, c1. split_and!; [done | by apply M_AltL | done].
    + apply IH2 in H as (s1 & s2 & c1 & -> & Hm & Hk).
      exists s1, s2, c1. split_and!; [done | by apply M_AltR | done].
  - exact (star_loop_sound r IH _ s c k v H).
  - destruct (run r s c _) as [v0|] eqn:E.
    + injection H as ->. apply IH in E as (s1 & s2 & c1 & -> & Hm & Hk).
      destruct (progress (s1 +:+ s2) s2) eqn:Hp; [|done].
      apply progress_app in Hp.
      exists s1, s2, c1. split_and!; [done | by apply M_OptSome | done].
    + exists "", s, c. split_and!; [done | constructor | done].
  - apply IH in H as (s1 & s2 & c1 & -> & Hm & Hk).
    rewrite consumed_app in Hk.
    exists s1, s2, (<[n := s1]> c1). split_and!; [done | by constructor | done].
Qed.

Lemma star_loop_complete (r : regex) :
  complete_at (R:=R) (run r) r →
  ∀ fuel s1 c c', Matches (Star r) s1 c c' →
    ∀ s2 (k : cont R), String.length (s1 +:+ s2) < fuel →
      is_Some (k s2 c') → is_Some (star_loop (run r) fuel (s1 +:+ s2) c k).
Proof.
  intros IH fuel. induction fuel as [|fuel IHf]; intros s1 c c' Hm s2 k Hlen Hk;
    [lia|].
  simpl. inversion Hm as [| | | | | |r' c0|r' t1 t2 c0 c1 c2 Hne Hm1 Hm2| | |];
    subst.
  - simpl. by destruct (run r s2 c' _).
  - rewrite StrFacts.app_assoc.
    assert (is_Some (run r (t1 +:+ (t2 +:+ s2)) c
      (fun s' c'0 => if progress (t1 +:+ (t2 +:+ s2)) s'
                     then star_loop (run r) fuel s' c'0 k else None)))
      as [v Hv]; [|by rewrite Hv].
    apply (IH t1 c c1 Hm1).
    destruct (progress_app t1 (t2 +:+ s2)) as [_ ->]; [|done].
    apply (IHf t2 c1 c' Hm2); [|done].
    rewrite !StrFacts.length_app in *. destruct t1; [done | simpl in *; lia].
Qed.

Lemma run_complete (r : regex) : complete_at (R:=R) (run r) r.
Proof.
  induction r as [|a|p|r1 IH1 r2 IH2|r1 IH1 r2 IH2|r IH|r IH|n r IH];
    intros s1 c c' Hm s2 k Hk; inversion Hm; subst;
    [simpl..|idtac|idtac|simpl|simpl|simpl].
  - done.
  - by rewrite Ascii.eqb_refl.
  - by match goal with H : p _ = true |- _ => rewrite H end.
  - rewrite StrFacts.app_assoc. eapply IH1; [done|]. by eapply IH2.
  - by match goal with H : Matches r1 _ _ _ |- _ =>
      destruct (IH1 _ _ _ H s2 k Hk) as [v ->] end.
  - destruct (run r1 (s1 +:+ s2) c k); [done|]. by eapply IH2.
  - apply (star_loop_complete r IH _ "" c' c' Hm); simpl; [lia | done].
  - apply (star_loop_complete r IH _ _ c c' Hm); [lia | done].
  - by destruct (run r s2 c' _).
  - assert (is_Some (run r (s1 +:+ s2) c
      (fun s' c'0 => if progress (s1 +:+ s2) s' then k s' c'0 else None)))
      as [v Hv]; [|by rewrite Hv].
    eapply IH; [done|].
    by destruct (progress_app s1 s2) as [_ ->].
  - eapply IH; [done|]. by rewrite consumed_app.
Qed.

End Soundness.

(** A match at the start of the input, in terms of [Matches]. *)
Lemma match_here_Some (r : regex) (s rest : string) (c : captures) :
  match_here r s = Some (rest, c) →
  ∃ s1, s = s1 +:+ rest ∧ Matches r s1 ∅ c.
Proof.
  intros H. apply run_sound in H as (s1 & s2 & c' & -> & Hm & [= <- <-]).
  by exists s1.
Qed.

Lemma match_here_is_Some (r : regex) (s1 s2 : string) (c : captures) :
  Matches r s1 ∅ c → is_Some (match_here r (s1 +:+ s2)).
Proof. intros Hm. by eapply run_complete. Qed.

(** [search] finds the leftmost position at which the pattern matches. *)
Lemma search_Some (r : regex) (pre s : string) (m : match_result) :
  search r pre s = Some m →
  ∃ skipped s',
    s = skipped +:+ s' ∧
    before m = pre +:+ skipped ∧
    match_here r s' = Some (after m, groups m) ∧
    matched m = consumed s' (after m) ∧
    ∀ i, i < String.length skipped → match_here r (Str.drop i s) = None.
Proof.
  revert pre; induction s as [|a s IH]; intros pre H; simpl in H.
  - destruct (match_here r "") as [[rest c]|] eqn:E; [|done].
    injection H as <-. exists "", "". simpl. rewrite StrFacts.app_nil_r.
    split_and!; try done. intros i Hi; lia.
  - destruct (match_here r (String a s)) as [[rest c]|] eqn:E.
    + injection H as <-. exists "", (String a s). simpl.
      rewrite StrFacts.app_nil_r. split_and!; try done. intros i Hi; lia.
    + apply IH in H as (sk & s' & -> & Hb & Hh & Hm & Hleft).
      exists (String a sk), s'. rewrite Hb, StrFacts.app_assoc. simpl.
      split_and!; try done.
      intros [|i] Hi; simpl; [done|]. apply Hleft. lia.
Qed.

Lemma search_is_Some (r : regex) (pre skipped s' : string) :
  is_Some (match_here r s') → is_Some (search r pre (skipped +:+ s')).
Proof.
  revert pre; induction skipped as [|a sk IH]; intros pre [[rest c] H]; simpl.
  - destruct s'; simpl; by rewrite H.
  - destruct (match_here r (String a (sk +:+ s'))) as [[??]|]; [done|].
    apply IH. by exists (rest, c).
Qed.

(** The matcher on the building blocks of the literals. *)
Lemma Matches_lits (w s : string) (c c' : captures) :
  Matches (lits w) s c c' ↔ s = w ∧ c' = c.
Proof.
  split.
  - revert s c c'; induction w as [|a w IH]; intros s c c' H; simpl in H.
    + by inversion H.
    + inversion H as [| | |?????? c1 H1 H2| | | | | | |]; subst.
      inversion H1; subst. apply IH in H2 as [-> ->]. done.
  - intros [-> ->]. induction w as [|a w IH]; simpl; [constructor|].
    change (String a w) with (String a "" +:+ w). econstructor; [constructor|done].
Qed.

Lemma Matches_star_class (p : ascii → bool) (s : string) (c c' : captures) :
  Matches (Star (Class p)) s c c' ↔ Str.forallb p s = true ∧ c' = c.
Proof.
  split.
  - remember (Star (Class p)) as r eqn:Hr. intros H.
    induction H as [| | | | | | |r0 s1 s2 c c1 c2 Hne H1 _ H2 IH2| | |];
      try discriminate; [done|].
    injection Hr as ->. inversion H1; subst. destruct (IH2 eq_refl) as [Hf ->].
    simpl. match goal with H : p _ = true |- _ => by rewrite H, Hf end.
  - intros [Hf ->]. induction s as [|a s IH]; [constructor|].
    simpl in Hf. apply andb_true_iff in Hf as [Ha Hf].
    change (String a s) with (String a "" +:+ s).
    econstructor; [done | by constructor | by apply IH].
Qed.

Lemma Matches_plus_class (p : ascii → bool) (s : string) (c c' : captures) :
  Matches (Plus (Class p)) s c c' ↔
  s ≠ "" ∧ Str.forallb p s = true ∧ c' = c.
Proof.
  unfold Plus. split.
  - intros H. inversion H as [| | |?????? c1 H1 H2| | | | | | |]; subst.
    inversion H1; subst. apply Matches_star_class in H2 as [Hf ->].
    simpl. match goal with H : p _ = true |- _ => by rewrite H, Hf end.
  - intros (Hne & Hf & ->). destruct s as [|a s]; [done|].
    simpl in Hf. apply andb_true_iff in Hf as [Ha Hf].
    change (String a s) with (String a "" +:+ s).
    econstructor; [by constructor | by apply Matches_star_class].
Qed.

Lemma Matches_opt_lits (w s : string) (c c' : captures) :
  Matches (Opt (lits w)) s c c' ↔ (s = "" ∨ s = w) ∧ c' = c.
Proof.
  split.
  - intros H. inversion H; subst; [by split; [left|]|].
    match goal with H : Matches (lits _) _ _ _ |- _ =>
      apply Matches_lits in H as [-> ->] end.
    by split; [right|].
  - intros [[->| ->] ->]; [constructor|].
    destruct w as [|a w]; [constructor|].
    apply M_OptSome; [done | by apply Matches_lits].
Qed.

(** Inversion of [Matches], one constructor of [regex] at a time. *)
Lemma Matches_Empty (s : string) (c c' : captures) :
  Matches Empty s c c' ↔ s = "" ∧ c' = c.
Proof. split; [by inversion 1 | intros [-> ->]; constructor]. Qed.

Lemma Matches_Chr (a : ascii) (s : string) (c c' : captures) :
  Matches (Chr a) s c c' ↔ s = String a "" ∧ c' = c.
Proof. split; [by inversion 1 | intros [-> ->]; constructor]. Qed.

Lemma Matches_Seq (r1 r2 : regex) (s : string) (c c' : captures) :
  Matches (Seq r1 r2) s c c' ↔
  ∃ s1 s2 c1, s = s1 +:+ s2 ∧ Matches r1 s1 c c1 ∧ Matches r2 s2 c1 c'.
Proof.
  split.
  - inversion 1; subst. by eexists _, _, _.
  - intros (s1 & s2 & c1 & -> & H1 & H2). by econstructor.
Qed.

Lemma Matches_Alt (r1 r2 : regex) (s : string) (c c' : captures) :
  Matches (Alt r1 r2) s c c' ↔ Matches r1 s c c' ∨ Matches r2 s c c'.
Proof.
  split.
  - inversion 1; subst; [by left | by right].
  - intros [H|H]; [by apply M_AltL | by apply M_AltR].
Qed.

Lemma Matches_Group (n : nat) (r : regex) (s : string) (c c' : captures) :
  Matches (Group n r) s c c' ↔ ∃ c1, Matches r s c c1 ∧ c' = <[n := s]> c1.
Proof.
  split.
  - inversion 1; subst. by eexists.
  - intros (c1 & H & ->). by constructor.
Qed.

(** The matcher on a run of literal characters. *)
Lemma run_lits {R : Type} (w s : string) (c : captures) (k : cont R) :
  run (lits w) s c k =
  match Str.strip_prefix w s with Some t => k t c | None => None end.
Proof.
  revert s; induction w as [|a w IH]; intros s; simpl; [done|].
  destruct s as [|b s]; [done|]. destruct (Ascii.eqb a b); [apply IH | done].
Qed.

Lemma strip_prefix_app (w t : string) :
  Str.strip_prefix w (w +:+ t) = Some t.
Proof. induction w as [|a w IH]; simpl; [done|]. by rewrite Ascii.eqb_refl. Qed.

(** A greedy class loop followed by nothing that can fail takes the whole
    run of class characters. *)
Lemma star_loop_class_greedy (p : ascii → bool) (fuel : nat) (s : string)
    (c : captures) :
  String.length s < fuel →
  star_loop (run (Class p)) fuel s c (fun rest c' => Some (rest, c')) =
  Some ((Str.span p s).2, c).
Proof.
  revert s; induction fuel as [|fuel IH]; intros s Hlen; [lia|].
  destruct s as [|a s]; [done|]. simpl.
  destruct (p a) eqn:Hp; [|done].
  replace (progress (String a s) s) with true
    by (symmetry; apply (progress_app (String a "") s); done).
  rewrite IH by (simpl in Hlen; lia).
  by destruct (Str.span p s).
Qed.

(** The leftmost match: nothing matches at the positions skipped. *)
Lemma search_leftmost (r : regex) (pre skipped s' rest : string)
    (c : captures) :
  (∀ i, i < String.length skipped →
        match_here r (Str.drop i (skipped +:+ s')) = None) →
  match_here r s' = Some (rest, c) →
  search r pre (skipped +:+ s') =
  Some (MatchResult (pre +:+ skipped) (consumed s' rest) c rest).
Proof.
  revert pre; induction skipped as [|a sk IH]; intros pre Hleft Hm; simpl.
  - rewrite StrFacts.app_nil_r. destruct s'; simpl; by rewrite Hm.
  - pose proof (Hleft 0 ltac:(simpl; lia)) as H0. simpl in H0. rewrite H0.
    rewrite IH; [by rewrite StrFacts.app_assoc | | done].
    intros i Hi. apply (Hleft (S i)). simpl; lia.
Qed.

Lemma search_None (r : regex) (pre s : string) :
  (∀ i, i ≤ String.length s → match_here r (Str.drop i s) = None) →
  search r pre s = None.
Proof.
  revert pre; induction s as [|a s IH]; intros pre H; simpl.
  - pose proof (H 0 ltac:(done)) as H0. simpl in H0. by rewrite H0.
  - pose proof (H 0 ltac:(simpl; lia)) as H0. simpl in H0. rewrite H0.
    apply IH.
    intros i Hi. apply (H (S i)). simpl; lia.
Qed.

End RegexFacts.

(** * The handler's patterns *)

Module PatternFacts.
Import Regex RegexFacts.

(** What [TWITTER_URL_MATCH] matches, and what it captures. *)
Lemma Matches_TWITTER_URL_MATCH (s : string) (c : captures) :
  Matches TWITTER_URL_MATCH s ∅ c ↔
  ∃ domain legacy handle es digits suffix,
    s = domain +:+ ".com/" +:+ legacy +:+ handle +:+ "/status" +:+ es
          +:+ "/" +:+ digits +:+ suffix ∧
    (domain = "twitter" ∨ domain = "x") ∧
    (legacy = "" ∨ legacy = "#!/") ∧
    handle ≠ "" ∧ Str.forallb is_word handle = true ∧
    (es = "" ∨ es = "es") ∧
    digits ≠ "" ∧ Str.forallb is_digit digits = true ∧
    (suffix = "" ∨ ∃ t, suffix = String "/" t ∧ Str.forallb is_dot t = true) ∧
    c = <[3 := digits]> (<[2 := handle]> (<[1 := domain]> ∅)).
Proof.
  cbv [TWITTER_URL_MATCH seqs]. split.
  - intros H.
    apply Matches_Seq in H as (domain & ? & ? & -> & Hdom & H).
    apply Matches_Seq in H as (? & ? & ? & -> & Hcom & H).
    apply Matches_Seq in H as (legacy & ? & ? & -> & Hleg & H).
    apply Matches_Seq in H as (handle & ? & ? & -> & Hhandle & H).
    apply Matches_Seq in H as (? & ? & ? & -> & Hstatus & H).
    apply Matches_Seq in H as (es & ? & ? & -> & Hes & H).
    apply Matches_Seq in H as (? & ? & ? & -> & Hslash & H).
    apply Matches_Seq in H as (digits & ? & ? & -> & Hdigits & H).
    apply Matches_Seq in H as (suffix & ? & cend & -> & Hsuffix & H).
    apply Matches_Empty in H as [-> ->].
    apply Matches_Group in Hdom as (c1 & Hdom & ->).
    apply Matches_lits in Hcom as [-> ->].
    apply Matches_opt_lits in Hleg as [Hleg ->].
    apply Matches_Group in Hhandle as (c2 & Hhandle & ->).
    apply Matches_plus_class in Hhandle as (Hh1 & Hh2 & ->).
    apply Matches_lits in Hstatus as [-> ->].
    apply Matches_opt_lits in Hes as [Hes ->].
    apply Matches_Chr in Hslash as [-> ->].
    apply Matches_Group in Hdigits as (c3 & Hdigits & ->).
    apply Matches_plus_class in Hdigits as (Hd1 & Hd2 & ->).
    assert (c1 = ∅ ∧ (domain = "twitter" ∨ domain = "x")) as [-> Hdomain].
    { apply Matches_Alt in Hdom as [Hdom|Hdom];
        apply Matches_lits in Hdom as [-> ->]; auto. }
    exists domain, legacy, handle, es, digits, suffix.
    rewrite StrFacts.app_nil_r.
    assert ((suffix = "" ∨
             ∃ t, suffix = String "/" t ∧ Str.forallb is_dot t = true) ∧
            cend = <[3:=digits]> (<[2:=handle]> (<[1:=domain]> ∅)))
      as [Hsuf ->]; [|by split_and!].
    inversion Hsuffix as [| | | | | | | |? ?|? ? ? ? Hne Hsuf|]; subst;
      [by split; [left|]|].
    apply Matches_Seq in Hsuf as (? & t & ? & -> & Hsl & Hsuf).
    apply Matches_Chr in Hsl as [-> ->].
    apply Matches_star_class in Hsuf as [Hdot ->].
    split; [right; by exists t | done].
  - intros (domain & legacy & handle & es & digits & suffix & -> & Hdom & Hleg
            & Hh1 & Hh2 & Hes & Hd1 & Hd2 & Hsuf & ->).
    replace suffix with (suffix +:+ "") by apply StrFacts.app_nil_r.
    apply M_Seq with (c1 := <[1:=domain]> ∅).
    { apply M_Group, Matches_Alt.
      destruct Hdom as [-> | ->]; [left|right]; by apply Matches_lits. }
    apply M_Seq with (c1 := <[1:=domain]> ∅); [by apply Matches_lits|].
    apply M_Seq with (c1 := <[1:=domain]> ∅); [by apply Matches_opt_lits|].
    apply M_Seq with (c1 := <[2:=handle]> (<[1:=domain]> ∅)).
    { by apply M_Group, Matches_plus_class. }
    apply M_Seq with (c1 := <[2:=handle]> (<[1:=domain]> ∅));
      [by apply Matches_lits|].
    apply M_Seq with (c1 := <[2:=handle]> (<[1:=domain]> ∅));
      [by apply Matches_opt_lits|].
    apply (M_Seq _ _ (String "/" "") _ _ (<[2:=handle]> (<[1:=domain]> ∅)));
      [constructor|].
    apply M_Seq with (c1 := <[3:=digits]> (<[2:=handle]> (<[1:=domain]> ∅))).
    { by apply M_Group, Matches_plus_class. }
    apply M_Seq with (c1 := <[3:=digits]> (<[2:=handle]> (<[1:=domain]> ∅)));
      [|constructor].
    destruct Hsuf as [-> | (t & -> & Hdot)]; [constructor|].
    apply M_OptSome; [done|].
    change (String "/" t) with (String "/" "" +:+ t).
    econstructor; [constructor | by apply Matches_star_class].
Qed.

End PatternFacts.

(** * The URL predicate and the identifier extracted from a URL *)

Lemma exec_TWITTER_URL_MATCH (url : string) (m : match_result) :
  exec TWITTER_URL_MATCH url = Some m →
  ∃ domain legacy handle es digits suffix,
    url = before m +:+ domain +:+ ".com/" +:+ legacy +:+ handle +:+ "/status"
            +:+ es +:+ "/" +:+ digits +:+ suffix +:+ after m ∧
    (domain = "twitter" ∨ domain = "x") ∧
    (legacy = "" ∨ legacy = "#!/") ∧
    handle ≠ "" ∧ Str.forallb is_word handle = true ∧
    (es = "" ∨ es = "es") ∧
    digits ≠ "" ∧ Str.forallb is_digit digits = true ∧
    groups m = <[3 := digits]> (<[2 := handle]> (<[1 := domain]> ∅)).
Proof.
  intros H. apply RegexFacts.search_Some in H
    as (skipped & s' & -> & Hb & Hh & _ & _).
  apply RegexFacts.match_here_Some in Hh as (s1 & -> & Hm).
  apply PatternFacts.Matches_TWITTER_URL_MATCH in Hm
    as (domain & legacy & handle & es & digits & suffix & -> & ? & ? & ? & ?
        & ? & ? & ? & _ & ?).
  exists domain, legacy, handle, es, digits, suffix.
  rewrite Hb. str_norm. by split_and!.
Qed.

(** C5. [shouldPreHandle] is a function from URL strings to booleans (it
    lives outside the monad [M]: no event, no store, no environment), and it
    answers [true] exactly on the URLs of the conversation-status shape. *)
Theorem shouldPreHandle_iff_status_url_shape (url : string) :
  shouldPreHandle url = true ↔ status_url_shape url.
Proof.
  unfold shouldPreHandle, test. split.
  - destruct (exec TWITTER_URL_MATCH url) as [m|] eqn:E; [intros _ | done].
    apply exec_TWITTER_URL_MATCH in E
      as (domain & legacy & handle & es & digits & suffix & -> & ? & ? & ? & ?
          & ? & ? & ? & _).
    exists (before m), domain, legacy, handle, es, digits, (suffix +:+ after m).
    by split_and!.
  - intros (pre & domain & legacy & handle & es & digits & rest & -> & ? & ?
            & ? & ? & ? & ? & ?).
    assert (is_Some (exec TWITTER_URL_MATCH
      (pre +:+ domain +:+ ".com/" +:+ legacy +:+ handle +:+ "/status" +:+ es
           +:+ "/" +:+ digits +:+ rest))) as [m ->]; [|done].
    apply RegexFacts.search_is_Some.
    replace (domain +:+ ".com/" +:+ legacy +:+ handle +:+ "/status" +:+ es
               +:+ "/" +:+ digits +:+ rest)
      with ((domain +:+ ".com/" +:+ legacy +:+ handle +:+ "/status" +:+ es
               +:+ "/" +:+ digits +:+ "") +:+ rest)
      by (str_norm; done).
    eapply RegexFacts.match_here_is_Some.
    apply PatternFacts.Matches_TWITTER_URL_MATCH.
    exists domain, legacy, handle, es, digits, "". split_and!; try done.
    by left.
Qed.

(** Whatever [tweetIdFromStatusUrl] returns is the handle segment of the
    URL (group 2 of the pattern), and it returns nothing exactly when the
    handler does not apply. *)
Lemma tweetIdFromStatusUrl_is_handle (url result : string) :
  tweetIdFromStatusUrl url = Some result →
  ∃ pre domain legacy es digits rest,
    url = pre +:+ domain +:+ ".com/" +:+ legacy +:+ result +:+ "/status"
              +:+ es +:+ "/" +:+ digits +:+ rest ∧
    (domain = "twitter" ∨ domain = "x") ∧
    (legacy = "" ∨ legacy = "#!/") ∧
    result ≠ "" ∧ Str.forallb is_word result = true ∧
    (es = "" ∨ es = "es") ∧
    digits ≠ "" ∧ Str.forallb is_digit digits = true.
Proof.
  unfold tweetIdFromStatusUrl, match_group.
  destruct (exec TWITTER_URL_MATCH url) as [m|] eqn:E; [|done].
  apply exec_TWITTER_URL_MATCH in E
    as (domain & legacy & handle & es & digits & suffix & -> & ? & ? & ? & ?
        & ? & ? & ? & ->).
  rewrite lookup_insert_ne, lookup_insert_eq by done. intros [= <-].
  exists (before m), domain, legacy, es, digits, (suffix +:+ after m).
  by split_and!.
Qed.

Lemma tweetIdFromStatusUrl_None (url : string) :
  tweetIdFromStatusUrl url = None ↔ shouldPreHandle url = false.
Proof.
  unfold tweetIdFromStatusUrl, match_group, shouldPreHandle, test.
  destruct (exec TWITTER_URL_MATCH url) as [m|] eqn:E; [|done].
  apply exec_TWITTER_URL_MATCH in E
    as (domain & legacy & handle & es & digits & suffix & _ & _ & _ & _ & _
        & _ & _ & _ & ->).
  by rewrite lookup_insert_ne, lookup_insert_eq.
Qed.

(** C3. On the status URL of post 20 by [jack], [tweetIdFromStatusUrl]
    returns the handle [jack], not the post id [20]: it reads group 2 of
    [TWITTER_URL_MATCH], and the digits are group 3. *)
Theorem tweetIdFromStatusUrl_returns_handle :
  tweetIdFromStatusUrl "https://twitter.com/jack/status/20" = Some "jack" ∧
  match_group TWITTER_URL_MATCH "https://twitter.com/jack/status/20" 3
    = Some "20".
Proof. split; vm_compute; reflexivity. Qed.

(** * Title synthesis *)

(** The pattern [http\S+] at the start of [s]: it matches when a URL
    occurrence starts there, and then takes the whole run of characters
    that are not white space. *)
Lemma match_here_HTTP_URL (s : string) :
  match_here HTTP_URL s =
  match Str.strip_prefix "http" s with
  | Some (String a t) =>
      if is_non_space a then Some ((Str.span is_non_space t).2, ∅) else None
  | _ => None
  end.
Proof.
  unfold match_here, HTTP_URL, Plus. cbn [run].
  rewrite RegexFacts.run_lits.
  destruct (Str.strip_prefix "http" s) as [[|a t]|]; try done.
  destruct (is_non_space a); [|done].
  apply RegexFacts.star_loop_class_greedy. lia.
Qed.

Lemma match_here_HTTP_URL_None (s : string) :
  url_at s = false → match_here HTTP_URL s = None.
Proof.
  rewrite match_here_HTTP_URL. unfold url_at.
  destruct (Str.strip_prefix "http" s) as [[|a t]|]; try done.
  by intros ->.
Qed.

Lemma match_here_HTTP_URL_Some (u post : string) :
  u ≠ "" → Str.forallb is_non_space u = true → ends_url post = true →
  match_here HTTP_URL ("http" +:+ u +:+ post) = Some (post, ∅).
Proof.
  intros Hne Hu Hpost. rewrite match_here_HTTP_URL.
  rewrite RegexFacts.strip_prefix_app.
  destruct u as [|a u]; [done|]. simpl in Hu |- *.
  apply andb_true_iff in Hu as [-> Hu].
  rewrite StrFacts.span_maximal; [done | done |].
  destruct post as [|b post]; [done|]. simpl in Hpost.
  unfold is_non_space. by rewrite Hpost.
Qed.

(** C4. The title is the author, [ on X: ] and the body text from which the
    first URL occurrence, and only it, has been removed: when the text is
    [pre], then [http] and a non-empty run [u] of characters that are not
    white space, then [post] (empty or starting with white space), and no
    URL occurrence starts inside [pre], the body segment is [pre] followed
    by [post], whatever URLs [post] holds; a text without any URL
    occurrence is kept as it is. *)
Theorem titleForTweet_strips_first_url (author text : string) :
  (∀ pre u post,
     text = pre +:+ "http" +:+ u +:+ post →
     u ≠ "" → Str.forallb is_non_space u = true → ends_url post = true →
     (∀ i, i < String.length pre → url_at (Str.drop i text) = false) →
     titleForTweet author text = author +:+ " on X: " +:+ pre +:+ post) ∧
  ((∀ i, i ≤ String.length text → url_at (Str.drop i text) = false) →
   titleForTweet author text = author +:+ " on X: " +:+ text).
Proof.
  unfold titleForTweet, replace_first_empty, exec. split.
  - intros pre u post -> Hne Hu Hpost Hleft.
    rewrite (RegexFacts.search_leftmost HTTP_URL "" pre _ post ∅).
    + done.
    + intros i Hi. apply match_here_HTTP_URL_None. by apply Hleft.
    + by apply match_here_HTTP_URL_Some.
  - intros Hnone. rewrite RegexFacts.search_None; [done|].
    intros i Hi. apply match_here_HTTP_URL_None. by apply Hnone.
Qed.

(** The example of the specification: the first URL goes, the second
    stays. *)
Lemma titleForTweet_strips_first_url_witness :
  titleForTweet "Jack" "see http://a and http://b"
  = "Jack on X: see  and http://b".
Proof.
  apply (proj1 (titleForTweet_strips_first_url "Jack"
                  "see http://a and http://b") "see " "://a" " and http://b");
    try reflexivity; try done.
  intros i Hi. simpl in Hi.
  do 4 (destruct i as [|i]; [reflexivity|]). lia.
Defined.

(** * The credentialed fetch operations *)

(** C8. Without the bearer credential, the recency search and the bulk
    resolution end in the configuration error and leave the world as it
    was: no request is recorded, neither a first one nor a repeated one.
    The recency path built on the search fails the same way. *)
Theorem missing_credential_raises_before_request
    (env : Env) (w : World) :
  TWITTER_BEARER_TOKEN env = None →
  (∀ conversationId,
     getTweetThread env conversationId w
     = (inl (Error "No Twitter bearer token found"), w)) ∧
  (∀ ids,
     getTweetsByIds env ids w
     = (inl (Error "No Twitter bearer token found"), w)) ∧
  (∀ conversationId,
     getRecentTweets env conversationId w
     = (inl (Error "No Twitter bearer token found"), w)).
Proof.
  intros Htoken. unfold getRecentTweets, bind, getTweetThread, getTweetsByIds.
  rewrite Htoken. by split_and!.
Qed.

(** An empty credential is treated like a missing one. *)
Lemma empty_credential_raises_before_request (env : Env) (w : World) :
  TWITTER_BEARER_TOKEN env = Some "" →
  (∀ conversationId,
     getTweetThread env conversationId w
     = (inl (Error "No Twitter bearer token found"), w)) ∧
  (∀ ids,
     getTweetsByIds env ids w
     = (inl (Error "No Twitter bearer token found"), w)).
Proof.
  intros Htoken. unfold getTweetThread, getTweetsByIds.
  rewrite Htoken. by split_and!.
Qed.

Lemma missing_credential_raises_before_request_witness :
  getTweetThread env_without_token "20" empty_world
  = (inl (Error "No Twitter bearer token found"), empty_world).
Proof.
  apply (proj1 (missing_credential_raises_before_request
                  env_without_token empty_world eq_refl)).
Defined.

(** * The scrape *)

(** What [HREF_STATUS] matches, and what it captures. *)
Lemma Matches_HREF_STATUS (s : string) (c : captures) :
  Matches HREF_STATUS s ∅ c →
  ∃ username id,
    s = "/" +:+ username +:+ "/status/" +:+ id ∧
    username ≠ "" ∧ Str.forallb is_not_slash username = true ∧
    id ≠ "" ∧ Str.forallb is_digit id = true ∧
    c = <[2 := id]> (<[1 := username]> ∅).
Proof.
  cbv [HREF_STATUS seqs]. intros H.
  apply RegexFacts.Matches_Seq in H as (? & ? & ? & -> & Hslash & H).
  apply RegexFacts.Matches_Seq in H as (username & ? & ? & -> & Huser & H).
  apply RegexFacts.Matches_Seq in H as (? & ? & ? & -> & Hstatus & H).
  apply RegexFacts.Matches_Seq in H as (id & ? & ? & -> & Hid & H).
  apply RegexFacts.Matches_Empty in H as [-> ->].
  apply RegexFacts.Matches_Chr in Hslash as [-> ->].
  apply RegexFacts.Matches_Group in Huser as (? & Huser & ->).
  apply RegexFacts.Matches_plus_class in Huser as (? & ? & ->).
  apply RegexFacts.Matches_lits in Hstatus as [-> ->].
  apply RegexFacts.Matches_Group in Hid as (? & Hid & ->).
  apply RegexFacts.Matches_plus_class in Hid as (? & ? & ->).
  exists username, id. rewrite StrFacts.app_nil_r. by split_and!.
Qed.

(** A node contributes an identifier only through an anchor whose [href]
    holds the requested author as user name, followed by that identifier. *)
Lemma id_of_time_node_Some (author : string) (timeNode : TimeNode.t)
    (id : string) :
  id_of_time_node author timeNode = Some id →
  ∃ timeContainerAnchor href,
    TimeNode.parentElement timeNode = Some timeContainerAnchor ∧
    Element.href timeContainerAnchor = Some href ∧
    match_group HREF_STATUS href 1 = Some author ∧
    match_group HREF_STATUS href 2 = Some id ∧
    ∃ pre post,
      href = pre +:+ "/" +:+ author +:+ "/status/" +:+ id +:+ post.
Proof.
  unfold id_of_time_node, match_group.
  destruct (TimeNode.parentElement timeNode) as [a|]; [|done].
  destruct (String.eqb (Element.tagName a) "SPAN"); [done|].
  destruct (Element.href a) as [href|] eqn:Eh; [|done].
  destruct (String.eqb href ""); [done|].
  destruct (exec HREF_STATUS href) as [m|] eqn:E; [|done].
  destruct (groups m !! 2) as [id'|] eqn:E2; [|done].
  destruct (groups m !! 1) as [username|] eqn:E1; [|done].
  destruct (String.eqb username author) eqn:Eu; [|done].
  apply String.eqb_eq in Eu as ->. intros [= ->].
  exists a, href. rewrite E. split_and!; try done.
  apply RegexFacts.search_Some in E as (skipped & s' & -> & Hb & Hh & _ & _).
  apply RegexFacts.match_here_Some in Hh as (s1 & -> & Hm).
  apply Matches_HREF_STATUS in Hm as (u & i & -> & _ & _ & _ & _ & Hg).
  rewrite Hg in E1, E2.
  rewrite lookup_insert_ne, lookup_insert_eq in E1 by done.
  rewrite lookup_insert_eq in E2.
  injection E1 as ->. injection E2 as ->.
  exists skipped, (after m). by str_norm.
Qed.

(** A node whose [href] names another user contributes nothing. *)
Lemma id_of_time_node_other_user (author : string) (timeNode : TimeNode.t)
    (timeContainerAnchor : Element.t) (href username : string) :
  TimeNode.parentElement timeNode = Some timeContainerAnchor →
  Element.href timeContainerAnchor = Some href →
  match_group HREF_STATUS href 1 = Some username →
  username ≠ author →
  id_of_time_node author timeNode = None.
Proof.
  unfold id_of_time_node, match_group. intros -> -> Hg Hne.
  destruct (String.eqb (Element.tagName timeContainerAnchor) "SPAN"); [done|].
  destruct (String.eqb href ""); [done|].
  destruct (exec HREF_STATUS href) as [m|]; [|done].
  rewrite Hg. destruct (groups m !! 2); [|done].
  by apply String.eqb_neq in Hne as ->.
Qed.

Lemma elem_of_collect_ids (author : string) (timeNodes : list TimeNode.t)
    (ids : list string) (id : string) :
  id ∈ collect_ids author timeNodes ids ↔
  id ∈ ids ∨
  ∃ timeNode, timeNode ∈ timeNodes ∧ id_of_time_node author timeNode = Some id.
Proof.
  revert ids; induction timeNodes as [|n rest IH]; intros ids; simpl.
  - split; [by left | intros [H|(n & H & _)]; [done | by inversion H]].
  - destruct (id_of_time_node author n) as [i|] eqn:E; rewrite IH.
    + rewrite elem_of_app, list_elem_of_singleton. split.
      * intros [[H| ->]|(n' & H & H')]; [by left | |].
        -- right. exists n. split; [left|done].
        -- right. exists n'. split; [by right|done].
      * intros [H|(n' & H & H')]; [by left; left|].
        apply elem_of_cons in H as [-> | H].
        -- rewrite E in H'. injection H' as ->. left; by right.
        -- right. by exists n'.
    + split.
      * intros [H|(n' & H & H')]; [by left|].
        right. exists n'. split; [by right|done].
      * intros [H|(n' & H & H')]; [by left|].
        apply elem_of_cons in H as [-> | H]; [congruence|].
        right. by exists n'.
Qed.

(** How [getTweetIds] ends, by cases on the steps of the browser. *)
Lemma getTweetIds_result (browser : Browser.t) (tweetId author : string)
    (w : World) :
  let pageURL := "https://twitter.com/" +:+ author +:+ "/status/" +:+ tweetId in
  ∃ w',
    getTweetIds browser tweetId author w
    = (match Browser.createIncognitoBrowserContext browser with
       | Some _ => inr []
       | None =>
           match Browser.close browser with
           | Some e => inl e
           | None =>
               match Browser.newPage browser, Browser.setViewport browser,
                     Browser.goto browser pageURL, Browser.evaluate browser
               with
               | None, None, None, None =>
                   inr (collect_ids author
                          (Document.time_nodes (Browser.document browser)
                             (bool_decide
                                (is_Some (showRepliesButton
                                            (Browser.document browser)))))
                          [])
               | _, _, _, _ => inr []
               end
           end
       end, w').
Proof.
  intros pageURL. unfold getTweetIds. cbv zeta. fold pageURL.
  clearbody pageURL.
  unfold bind, attempt, try_finally, try_catch, emit, settle,
    lift, ret, throw, page_script, bind, emit, ret.
  destruct (Browser.createIncognitoBrowserContext browser);
    [eexists; reflexivity|]; cbn.
  destruct (Browser.newPage browser); cbn;
    [destruct (Browser.close browser); eexists; reflexivity|].
  destruct (Browser.setViewport browser); cbn;
    [destruct (Browser.close browser); eexists; reflexivity|].
  destruct (Browser.goto browser pageURL); cbn;
    [destruct (Browser.close browser); eexists; reflexivity|].
  destruct (Browser.evaluate browser); cbn;
    [destruct (Browser.close browser); eexists; reflexivity|].
  destruct (showRepliesButton (Browser.document browser)); cbn;
    destruct (Browser.close browser); eexists; reflexivity.
Qed.




(** C7. Every identifier returned by the scrape comes from a [time] node of
    the page whose anchor has an [href] with the requested author as user
    name (group 1 of the pattern) and that identifier as digits (group 2):
    the [href] reads [.../author/status/id...]. *)
Theorem getTweetIds_only_author_replies
    (browser : Browser.t) (tweetId author : string) (w w' : World)
    (ids : list string) :
  getTweetIds browser tweetId author w = (inr ids, w') →
  ∀ id, id ∈ ids →
    ∃ clicked timeNode timeContainerAnchor href,
      timeNode ∈ Document.time_nodes (Browser.document browser) clicked ∧
      TimeNode.parentElement timeNode = Some timeContainerAnchor ∧
      Element.href timeContainerAnchor = Some href ∧
      match_group HREF_STATUS href 1 = Some author ∧
      match_group HREF_STATUS href 2 = Some id ∧
      ∃ pre post,
        href = pre +:+ "/" +:+ author +:+ "/status/" +:+ id +:+ post.
Proof.
  intros Hrun id Hid.
  destruct (getTweetIds_result browser tweetId author w) as [w0 Hres].
  cbv zeta in Hres. rewrite Hrun in Hres. clear Hrun.
  set (pageURL := "https://twitter.com/" +:+ author +:+ "/status/" +:+ tweetId)
    in Hres.
  clearbody pageURL.
  assert (ids = [] ∨
          ∃ clicked,
            ids = collect_ids author
                    (Document.time_nodes (Browser.document browser) clicked) [])
    as [-> | [clicked ->]].
  { destruct (Browser.createIncognitoBrowserContext browser);
      [left; congruence|].
    destruct (Browser.close browser); [congruence|].
    destruct (Browser.newPage browser), (Browser.setViewport browser),
      (Browser.goto browser pageURL), (Browser.evaluate browser);
      try (left; congruence).
    right. injection Hres as -> _. by eexists. }
  - by inversion Hid.
  - apply elem_of_collect_ids in Hid as [Hid | (timeNode & Hin & Hnode)];
      [by inversion Hid|].
    apply id_of_time_node_Some in Hnode
      as (a & href & Hp & Hh & Hg1 & Hg2 & Hshape).
    by exists clicked, timeNode, a, href.
Qed.

Lemma getTweetIds_only_author_replies_witness :
  ∃ clicked timeNode timeContainerAnchor href,
    timeNode ∈ Document.time_nodes (Browser.document working_browser) clicked ∧
    TimeNode.parentElement timeNode = Some timeContainerAnchor ∧
    Element.href timeContainerAnchor = Some href ∧
    match_group HREF_STATUS href 1 = Some "jack" ∧
    match_group HREF_STATUS href 2 = Some "30" ∧
    ∃ pre post,
      href = pre +:+ "/" +:+ "jack" +:+ "/status/" +:+ "30" +:+ post.
Proof.
  apply (getTweetIds_only_author_replies working_browser "20" "jack"
           empty_world
           (getTweetIds working_browser "20" "jack" empty_world).2
           ["30"; "20"]).
  - vm_compute. reflexivity.
  - left.
Defined.

(** * Building the thread from an answer *)

(** The loop of [getTweetsFromResponse] turns the posts of the answer, in
    their order, into tweets that all hold the [users] reference of the
    answer; it records no event and leaves every [users] array as it is. *)
Lemma getTweetsFromResponse_loop_spec (response : Tweets.t)
    (data : list TweetData.t) (tweets : list Tweet.t) (w : World) :
  ∃ ts w',
    getTweetsFromResponse_loop response data tweets w = (inr (tweets ++ ts), w') ∧
    trace w' = trace w ∧
    users_arrays (store w') = users_arrays (store w) ∧
    Tweet.data <$> ts = data ∧
    Forall (fun t => TweetIncludes.users (Tweet.includes t)
                     = TweetIncludes.users (Tweets.includes response)) ts.
Proof.
  revert tweets w; induction data as [|t rest IH]; intros tweets w; simpl.
  - exists [], w. rewrite app_nil_r. by split_and!.
  - unfold bind at 1.
    destruct (TweetIncludes.media (Tweets.includes response)) as [all|].
    + unfold bind, get_store, alloc_media, ret. cbn.
      match goal with |- context [getTweetsFromResponse_loop _ _ ?acc ?w0] =>
        destruct (IH acc w0) as (ts & w' & -> & Htr & Hus & Hdata & Hall) end.
      eexists (_ :: ts), w'. rewrite <- app_assoc. cbn in *.
      split_and!; try done; [by f_equal | by constructor].
    + unfold ret.
      match goal with |- context [getTweetsFromResponse_loop _ _ ?acc ?w0] =>
        destruct (IH acc w0) as (ts & w' & -> & Htr & Hus & Hdata & Hall) end.
      eexists (_ :: ts), w'. rewrite <- app_assoc. cbn in *.
      split_and!; try done; [by f_equal | by constructor].
Qed.

Lemma getTweetsFromResponse_spec (response : Tweets.t) (w : World) :
  ∃ ts w',
    getTweetsFromResponse response w = (inr ts, w') ∧
    trace w' = trace w ∧
    users_arrays (store w') = users_arrays (store w) ∧
    Tweet.data <$> ts = Tweets.data response ∧
    Forall (fun t => TweetIncludes.users (Tweet.includes t)
                     = TweetIncludes.users (Tweets.includes response)) ts.
Proof.
  apply (getTweetsFromResponse_loop_spec response (Tweets.data response) [] w).
Qed.

(** What the HTTP client does for a [Tweets] answer. *)
Lemma axios_get_tweets_spec (env : Env) (url : string)
    (headers : list (string * string)) (w : World) :
  match http_get_tweets env url headers with
  | inl e =>
      axios_get_tweets env url headers w
      = (inl e, mkWorld (trace w ++ [HttpGet url headers]) (store w))
  | inr body =>
      ∃ response w',
        axios_get_tweets env url headers w = (inr response, w') ∧
        trace w' = trace w ++ [HttpGet url headers] ∧
        Tweets.data response = TweetsBody.data body ∧
        Tweets.meta_result_count response = TweetsBody.result_count body ∧
        read_users (store w') (TweetIncludes.users (Tweets.includes response))
        = TweetsBody.users body
  end.
Proof.
  unfold axios_get_tweets, bind, emit, lift, alloc_users, alloc_media, ret,
    throw, read_users.
  destruct (http_get_tweets env url headers) as [e|body]; cbn; [done|].
  destruct (TweetsBody.media body) as [l|]; cbn;
    eexists _, _; (split; [reflexivity|]); cbn;
    by rewrite ?lookup_insert_eq.
Qed.

(** * One lookup *)

Lemma events_of_app {A : Type} (m : M A) (w : World) (l : list event) :
  trace (m w).2 = trace w ++ l → events_of m w = l.
Proof. unfold events_of. intros ->. apply drop_app_length. Qed.

(** The events of one [preHandle]: the oEmbed request, and the console
    log when the request succeeded. *)
Lemma preHandle_events (env : Env) (url : string) (w : World) :
  events_of (preHandle env url) w =
  match http_get_embed env (embed_url url) with
  | inl _ => [HttpGet (embed_url url) []]
  | inr _ => [HttpGet (embed_url url) []; ConsoleLog "embedTweet"]
  end.
Proof.
  apply events_of_app.
  unfold preHandle, getEmbedTweet, axios_get_embed, bind, emit, lift, ret,
    throw.
  destruct (http_get_embed env (embed_url url)); cbn; [done|].
  by rewrite <- app_assoc.
Qed.

(** C2 (as the code has it). One [preHandle] uses neither fetch strategy:
    its only request is the oEmbed request for the URL, followed by one
    console log when it succeeds.  It sends no recency search, drives no
    browser and resolves no identifiers, so the two paths are never both
    used for one lookup. *)
Theorem preHandle_uses_no_fetch_strategy (env : Env) (url : string) (w : World) :
  let tr := events_of (preHandle env url) w in
  (tr = [HttpGet (embed_url url) []] ∨
   tr = [HttpGet (embed_url url) []; ConsoleLog "embedTweet"]) ∧
  uses_recent_path tr = false ∧
  uses_scrape_path tr = false.
Proof.
  cbv zeta. rewrite preHandle_events.
  destruct (http_get_embed env (embed_url url)); split_and!;
    first [by left | by right | reflexivity].
Qed.

(** A successful lookup of a status URL, with the credential set and all
    services up, uses none of the two strategies, not exactly one. *)
Lemma preHandle_uses_neither_strategy :
  let lookup := preHandle env_all_services "https://twitter.com/jack/status/20" in
  let tr := events_of lookup empty_world in
  match (lookup empty_world).1 with
  | inr result =>
      PreHandleResult.title result = "Jack on X: just setting up my twttr"
  | inl _ => False
  end ∧
  xorb (uses_recent_path tr) (uses_scrape_path tr) = false.
Proof. split; vm_compute; reflexivity. Qed.

(** The two strategies are visible in the trace when they run: the recency
    path sends its search request as soon as the credential is set, and the
    scrape path starts by asking the browser for a context. *)
Lemma getRecentTweets_uses_recent_path (env : Env) (conversationId : string)
    (w : World) :
  falsy (TWITTER_BEARER_TOKEN env) = false →
  uses_recent_path (events_of (getRecentTweets env conversationId) w) = true.
Proof.
  intros Htoken.
  assert (∃ l, events_of (getRecentTweets env conversationId) w
               = HttpGet (recent_search_url conversationId) l :: [])
    as [l ->]; [|reflexivity].
  eexists. apply events_of_app.
  unfold getRecentTweets, bind, getTweetThread. rewrite Htoken.
  pose proof (axios_get_tweets_spec env (recent_search_url conversationId)
    (bearer_headers (default "" (TWITTER_BEARER_TOKEN env))) w) as H.
  destruct (http_get_tweets env _ _) as [e|body].
  - rewrite H. reflexivity.
  - destruct H as (response & w' & -> & Htr & _).
    destruct (Tweets.meta_result_count response =? 0)%Z; [done|].
    destruct (getTweetsFromResponse_spec response w')
      as (ts & w'' & -> & Htr' & _).
    unfold ret. cbn [snd]. by rewrite Htr', Htr.
Qed.

Lemma getTweetIds_starts_with_context (browser : Browser.t)
    (tweetId author : string) (w : World) :
  ∃ l, trace (getTweetIds browser tweetId author w).2
       = trace w ++ CreateIncognitoBrowserContext :: l.
Proof.
  unfold getTweetIds. cbv zeta.
  set (pageURL := "https://twitter.com/" +:+ author +:+ "/status/" +:+ tweetId).
  clearbody pageURL.
  unfold bind, attempt, try_finally, try_catch, emit, settle,
    lift, ret, throw, page_script, bind, emit, ret.
  destruct (Browser.createIncognitoBrowserContext browser); cbn;
    [eexists; rewrite <- app_assoc; reflexivity|].
  destruct (Browser.newPage browser); cbn;
    [destruct (Browser.close browser); cbn; eexists;
     rewrite <- !app_assoc; reflexivity|].
  destruct (Browser.setViewport browser); cbn;
    [destruct (Browser.close browser); cbn; eexists;
     rewrite <- !app_assoc; reflexivity|].
  destruct (Browser.goto browser pageURL); cbn;
    [destruct (Browser.close browser); cbn; eexists;
     rewrite <- !app_assoc; reflexivity|].
  destruct (Browser.evaluate browser); cbn;
    [destruct (Browser.close browser); cbn; eexists;
     rewrite <- !app_assoc; reflexivity|].
  destruct (showRepliesButton (Browser.document browser)); cbn;
    destruct (Browser.close browser); cbn; eexists;
    rewrite <- !app_assoc; reflexivity.
Qed.

Lemma getTweetsByIds_trace (env : Env) (ids : list string) (w : World) :
  ∃ l, trace (getTweetsByIds env ids w).2 = trace w ++ l.
Proof.
  unfold getTweetsByIds.
  destruct (falsy (TWITTER_BEARER_TOKEN env));
    [exists []; by rewrite app_nil_r|].
  pose proof (axios_get_tweets_spec env (tweets_by_ids_url ids)
    (bearer_headers (default "" (TWITTER_BEARER_TOKEN env))) w) as H.
  destruct (http_get_tweets env _ _) as [e|body].
  - rewrite H. by eexists.
  - destruct H as (response & w' & -> & Htr & _). by eexists.
Qed.

Lemma getOldTweets_uses_scrape_path (env : Env) (browser : Browser.t)
    (conversationId username : string) (w : World) :
  uses_scrape_path
    (events_of (getOldTweets env browser conversationId username) w) = true.
Proof.
  assert (∃ l, trace (getOldTweets env browser conversationId username w).2
               = trace w ++ CreateIncognitoBrowserContext :: l) as [l Hl].
  { destruct (getTweetIds_starts_with_context browser conversationId username w)
      as [l Hl].
    unfold getOldTweets, bind.
    destruct (getTweetIds browser conversationId username w) as [[e|ids] w1];
      cbn [snd] in Hl; [by exists l|].
    destruct (length ids =? 0); [by exists l|].
    destruct (getTweetsByIds_trace env ids w1) as [l1 Hl1].
    destruct (getTweetsByIds env ids w1) as [[e|response] w2];
      cbn [snd] in Hl1.
    - exists (l ++ l1). cbn [snd]. rewrite Hl1, Hl, <- app_assoc. done.
    - destruct (getTweetsFromResponse_spec response w2)
        as (ts & w3 & -> & Htr & _).
      exists (l ++ l1). cbn [snd]. rewrite Htr, Hl1, Hl, <- app_assoc. done. }
  by rewrite (events_of_app _ _ _ Hl).
Qed.

(** * The order of the thread *)

Lemma StronglySorted_reverse {A : Type} (R : relation A) (l : list A) :
  StronglySorted (flip R) l → StronglySorted R (reverse l).
Proof.
  induction 1 as [|x l Hl IH Hx]; [constructor|]. rewrite reverse_cons.
  apply StronglySorted_app. split_and!; [|done|repeat constructor].
  intros x1 x2 H1 H2. apply list_elem_of_singleton in H2 as ->.
  rewrite Forall_forall in Hx. apply Hx. by apply elem_of_reverse.
Qed.

(** What the recency path returns: nothing when the answer counts no
    result, otherwise the posts of the answer in reversed order. *)
Lemma getRecentTweets_posts (env : Env) (conversationId : string)
    (w w' : World) (ts : list Tweet.t) :
  getRecentTweets env conversationId w = (inr ts, w') →
  ∃ body,
    http_get_tweets env (recent_search_url conversationId)
      (bearer_headers (default "" (TWITTER_BEARER_TOKEN env))) = inr body ∧
    posts_of ts =
      if (TweetsBody.result_count body =? 0)%Z then []
      else reverse (TweetsBody.data body).
Proof.
  unfold getRecentTweets, bind, getTweetThread.
  destruct (falsy (TWITTER_BEARER_TOKEN env)); [done|].
  pose proof (axios_get_tweets_spec env (recent_search_url conversationId)
    (bearer_headers (default "" (TWITTER_BEARER_TOKEN env))) w) as H.
  destruct (http_get_tweets env _ _) as [e|body]; [by rewrite H|].
  destruct H as (response & w1 & -> & _ & Hdata & Hcount & _).
  exists body. split; [done|]. rewrite <- Hcount, <- Hdata.
  destruct (Tweets.meta_result_count response =? 0)%Z.
  - unfold ret in H. by injection H as <- _.
  - destruct (getTweetsFromResponse_spec response w1)
      as (ts' & w2 & Hrun & _ & _ & Hposts & _).
    rewrite Hrun in H. unfold ret in H. injection H as <- _.
    unfold posts_of. by rewrite fmap_reverse, Hposts.
Qed.

(** What the scrape path returns: the scrape has returned its list of
    identifiers; the thread is empty when that list is, and otherwise it is
    the posts of the bulk answer for exactly these identifiers, in the
    order of that answer. *)
Lemma getOldTweets_posts (env : Env) (browser : Browser.t)
    (conversationId username : string) (w w' : World) (ts : list Tweet.t) :
  getOldTweets env browser conversationId username w = (inr ts, w') →
  ∃ tweetIds w1,
    getTweetIds browser conversationId username w = (inr tweetIds, w1) ∧
    match tweetIds with
    | [] => ts = []
    | _ :: _ =>
        ∃ body,
          http_get_tweets env (tweets_by_ids_url tweetIds)
            (bearer_headers (default "" (TWITTER_BEARER_TOKEN env)))
          = inr body ∧
          posts_of ts = TweetsBody.data body
    end.
Proof.
  unfold getOldTweets, bind.
  destruct (getTweetIds browser conversationId username w) as [[e|ids] w1];
    [done|].
  intros Hrun. exists ids, w1. split; [done|].
  destruct ids as [|id ids]; [unfold ret in Hrun; by injection Hrun as <- _|].
  cbn [length Nat.eqb] in Hrun. revert Hrun. generalize (id :: ids) as tweetIds.
  intros tweetIds. unfold getTweetsByIds.
  destruct (falsy (TWITTER_BEARER_TOKEN env)); [done|].
  pose proof (axios_get_tweets_spec env (tweets_by_ids_url tweetIds)
    (bearer_headers (default "" (TWITTER_BEARER_TOKEN env))) w1) as H.
  destruct (http_get_tweets env _ _) as [e|body] eqn:Ehttp; [by rewrite H|].
  destruct H as (response & w2 & -> & _ & Hdata & _).
  destruct (getTweetsFromResponse_spec response w2)
    as (ts' & w3 & -> & _ & _ & Hposts & _).
  intros [= <- _]. exists body. split; [done|].
  unfold posts_of. by rewrite Hposts.
Qed.

(** C1 (as the code has it). The recency path returns the posts of the
    search answer in reversed order (none when the answer counts no
    result): the thread is ascending by [created_at] whenever the answer is
    newest-first, and has no two posts with one id whenever the answer has
    none.  The scrape path returns no post when the scrape found no
    identifier, and otherwise the posts of the bulk answer for exactly the
    identifiers the scrape found, in the order of that answer. *)
Theorem thread_follows_the_answer (env : Env) :
  (∀ conversationId w w' ts,
     getRecentTweets env conversationId w = (inr ts, w') →
     ∃ body,
       http_get_tweets env (recent_search_url conversationId)
         (bearer_headers (default "" (TWITTER_BEARER_TOKEN env))) = inr body ∧
       posts_of ts =
         (if (TweetsBody.result_count body =? 0)%Z then []
          else reverse (TweetsBody.data body)) ∧
       (newest_first (TweetsBody.data body) → ascending (posts_of ts)) ∧
       (∀ post_id : TweetData.t → string,
          NoDup (post_id <$> TweetsBody.data body) →
          NoDup (post_id <$> posts_of ts))) ∧
  (∀ browser conversationId username w w' ts,
     getOldTweets env browser conversationId username w = (inr ts, w') →
     ∃ tweetIds w1,
       getTweetIds browser conversationId username w = (inr tweetIds, w1) ∧
       match tweetIds with
       | [] => ts = []
       | _ :: _ =>
           ∃ body,
             http_get_tweets env (tweets_by_ids_url tweetIds)
               (bearer_headers (default "" (TWITTER_BEARER_TOKEN env)))
             = inr body ∧
             posts_of ts = TweetsBody.data body
       end).
Proof.
  split.
  - intros conversationId w w' ts Hrun.
    apply getRecentTweets_posts in Hrun as (body & Hbody & Hposts).
    exists body. rewrite Hposts. split_and!; try done.
    + intros Hnewest. destruct (TweetsBody.result_count body =? 0)%Z;
        [constructor | by apply StronglySorted_reverse].
    + intros post_id Hnodup. destruct (TweetsBody.result_count body =? 0)%Z;
        [constructor|]. by rewrite fmap_reverse, reverse_Permutation.
  - intros browser conversationId username w w' ts Hrun.
    by apply getOldTweets_posts in Hrun.
Qed.

(** Both paths on the answer [post_30], [post_20]: the recency path gives
    the thread [post_20], [post_30]; the scrape of [thread_page] finds the
    identifiers and the scrape path gives the answer as it came. *)
Lemma thread_follows_the_answer_witness :
  (∃ body,
     http_get_tweets env_newer_first (recent_search_url "20")
       (bearer_headers (default "" (TWITTER_BEARER_TOKEN env_newer_first)))
       = inr body ∧
     posts_of [tweet_of post_20; tweet_of post_30] =
       (if (TweetsBody.result_count body =? 0)%Z then []
        else reverse (TweetsBody.data body)) ∧
     (newest_first (TweetsBody.data body) →
      ascending (posts_of [tweet_of post_20; tweet_of post_30])) ∧
     (∀ post_id : TweetData.t → string,
        NoDup (post_id <$> TweetsBody.data body) →
        NoDup (post_id <$> posts_of [tweet_of post_20; tweet_of post_30]))) ∧
  (∃ tweetIds w1,
     getTweetIds working_browser "20" "jack" empty_world
     = (inr tweetIds, w1) ∧
     match tweetIds with
     | [] => [tweet_of post_30; tweet_of post_20] = []
     | _ :: _ =>
         ∃ body,
           http_get_tweets env_newer_first (tweets_by_ids_url tweetIds)
             (bearer_headers
                (default "" (TWITTER_BEARER_TOKEN env_newer_first)))
           = inr body ∧
           posts_of [tweet_of post_30; tweet_of post_20]
           = TweetsBody.data body
     end).
Proof.
  split.
  - apply (proj1 (thread_follows_the_answer env_newer_first) "20"
             empty_world
             (getRecentTweets env_newer_first "20" empty_world).2).
    vm_compute. reflexivity.
  - apply (proj2 (thread_follows_the_answer env_newer_first)
             working_browser "20" "jack" empty_world
             (getOldTweets env_newer_first working_browser "20" "jack"
                empty_world).2).
    vm_compute. reflexivity.
Defined.

(** The scrape path hands back the bulk answer as it came: here the newer
    post before the older one. *)
Lemma getOldTweets_keeps_answer_order :
  match (getOldTweets env_newer_first working_browser "20" "jack"
           empty_world).1 with
  | inr ts =>
      posts_of ts = [post_30; post_20] ∧
      bool_decide (ascending (posts_of ts)) = false
  | inl _ => False
  end.
Proof. vm_compute. split; reflexivity. Qed.

(** * Authors of a thread *)

Lemma remove_dups_constant {A : Type} `{EqDecision A} (x : A) (l : list A) :
  Forall (fun y => y = x) l → l ≠ [] → remove_dups l = [x].
Proof.
  induction 1 as [|y l -> Hl IH]; [done|]. intros _. simpl.
  destruct (decide_rel elem_of x l) as [Hin|Hnin].
  - apply IH. intros ->. by inversion Hin.
  - destruct l as [|z l]; [done|]. inversion Hl; subst.
    exfalso. apply Hnin. left.
Qed.

Lemma read_users_ext (st st' : Store) (l : loc) :
  users_arrays st' = users_arrays st → read_users st' l = read_users st l.
Proof. unfold read_users. by intros ->. Qed.

(** C9 (as the code has it). Every tweet built from an answer holds the
    reference to the one [users] array of that answer; no [users] array is
    created or changed.  So the author records reachable from a non-empty
    thread are exactly the records of the answer, once; and no two of them
    share an id when no two of the answer do. *)
Theorem getTweetsFromResponse_shares_users
    (response : Tweets.t) (w w' : World) (ts : list Tweet.t) :
  getTweetsFromResponse response w = (inr ts, w') →
  let users := TweetIncludes.users (Tweets.includes response) in
  Forall (fun t => TweetIncludes.users (Tweet.includes t) = users) ts ∧
  users_arrays (store w') = users_arrays (store w) ∧
  (ts ≠ [] → author_records (store w') ts = read_users (store w) users) ∧
  (NoDup (User.id <$> read_users (store w) users) →
   NoDup (User.id <$> author_records (store w') ts)).
Proof.
  intros Hrun users.
  destruct (getTweetsFromResponse_spec response w)
    as (ts' & w1 & Hrun' & _ & Hstore & _ & Hall).
  rewrite Hrun in Hrun'. injection Hrun' as <- <-. fold users in Hall.
  assert (ts ≠ [] → author_records (store w') ts = read_users (store w) users)
    as Hrecords.
  { intros Hne. unfold author_records, author_arrays.
    rewrite (remove_dups_constant users).
    - simpl. rewrite app_nil_r. by apply read_users_ext.
    - by apply Forall_fmap.
    - by destruct ts. }
  split_and!; try done.
  intros Hnodup. destruct ts as [|t ts]; [constructor|].
  by rewrite Hrecords.
Qed.

Lemma getTweetsFromResponse_shares_users_witness :
  let w := world_with_users [jack] in
  let ts := [tweet_of post_30; tweet_of post_20] in
  let w' := (getTweetsFromResponse (response_of [post_30; post_20]) w).2 in
  Forall (fun t => TweetIncludes.users (Tweet.includes t) = 0) ts ∧
  users_arrays (store w') = users_arrays (store w) ∧
  (ts ≠ [] → author_records (store w') ts = read_users (store w) 0) ∧
  (NoDup (User.id <$> read_users (store w) 0) →
   NoDup (User.id <$> author_records (store w') ts)).
Proof.
  apply (getTweetsFromResponse_shares_users (response_of [post_30; post_20])
           (world_with_users [jack])).
  vm_compute. reflexivity.
Defined.

(** An answer whose [users] array holds two records with one id gives a
    thread with these two records. *)
Lemma getTweetsFromResponse_keeps_repeated_users :
  match getTweetsFromResponse (response_of [post_20])
          (world_with_users [jack; jack]) with
  | (inr ts, w') =>
      User.id <$> author_records (store w') ts = ["12"; "12"] ∧
      bool_decide (NoDup (User.id <$> author_records (store w') ts)) = false
  | (inl _, _) => False
  end.
Proof. vm_compute. split; reflexivity. Qed.

(** * Unsubscribing by mail *)

Lemma remove_first_keeps_absent (c : ascii) (pattern s : string) :
  Str.includes_char c s = false →
  Str.includes_char c (remove_first pattern s) = false.
Proof.
  unfold remove_first, Str.includes_char. intros H.
  destruct (String.index 0 pattern s) as [i|]; [|done].
  rewrite StrFacts.existsb_app, StrFacts.existsb_take, StrFacts.existsb_drop;
    done.
Qed.

(** C10. [parseUnsubscribeMailTo] on the two addresses of the
    specification, given what [new URL] answers on them; on an address
    without [@] it raises (the validation error whenever [new URL] accepted
    the address, the error of [new URL] otherwise); and whatever it raises,
    [sendUnsubscribeEmail] catches it, logs it, sends nothing and returns
    [false]. *)
Theorem parseUnsubscribeMailTo_cases (env : Env) :
  (∀ parsed,
     new_URL env "mailto://list@example.com?subject=Stop" = Some parsed →
     URL.search parsed = "?subject=Stop" →
     URL.searchParams_get parsed "subject" = Some "Stop" →
     parseUnsubscribeMailTo env "list@example.com?subject=Stop"
     = inr (MailTo.mk "list@example.com" "Stop")) ∧
  (∀ parsed,
     new_URL env "mailto://list@example.com" = Some parsed →
     URL.search parsed = "" →
     URL.searchParams_get parsed "subject" = None →
     parseUnsubscribeMailTo env "list@example.com"
     = inr (MailTo.mk "list@example.com" "Unsubscribe")) ∧
  (∀ address,
     Str.includes_char "@" address = false →
     ∃ e,
       parseUnsubscribeMailTo env address = inl e ∧
       (is_Some (new_URL env ("mailto://" +:+ address)) →
        e = Error ("Invalid unsubscribe email address: " +:+ address))) ∧
  (∀ address newsletterEmail e w,
     parseUnsubscribeMailTo env address = inl e →
     sendUnsubscribeEmail env address newsletterEmail w
     = (inr false,
        mkWorld (trace w ++ [LoggerInfo "Failed to send unsubscribe email"])
          (store w))).
Proof.
  split_and!.
  - intros parsed Hurl Hsearch Hsubject. unfold parseUnsubscribeMailTo.
    cbn [String.append]. rewrite Hurl, Hsearch, Hsubject. reflexivity.
  - intros parsed Hurl Hsearch Hsubject. unfold parseUnsubscribeMailTo.
    cbn [String.append]. rewrite Hurl, Hsearch, Hsubject. reflexivity.
  - intros address Hat. unfold parseUnsubscribeMailTo.
    destruct (new_URL env ("mailto://" +:+ address)) as [parsed|].
    + rewrite (remove_first_keeps_absent _ _ _ Hat), orb_true_r.
      eexists. split; [reflexivity | done].
    + eexists. split; [reflexivity|]. by intros [? ?].
  - intros address newsletterEmail e w Hparse.
    unfold sendUnsubscribeEmail, try_catch, bind, lift.
    rewrite Hparse. reflexivity.
Qed.

Lemma parseUnsubscribeMailTo_cases_witness :
  parseUnsubscribeMailTo env_mail "list@example.com?subject=Stop"
  = inr (MailTo.mk "list@example.com" "Stop") ∧
  parseUnsubscribeMailTo env_mail "list@example.com"
  = inr (MailTo.mk "list@example.com" "Unsubscribe") ∧
  parseUnsubscribeMailTo env_mail "unsubscribe"
  = inl (Error "Invalid unsubscribe email address: unsubscribe") ∧
  sendUnsubscribeEmail env_mail "unsubscribe" "me@inbox.omnivore.app" empty_world
  = (inr false, mkWorld [LoggerInfo "Failed to send unsubscribe email"] empty_store).
Proof.
  destruct (parseUnsubscribeMailTo_cases env_mail) as (H1 & H2 & H3 & H4).
  split_and!.
  - apply (H1 (URL.mk "?subject=Stop"
                 (fun name => if String.eqb name "subject" then Some "Stop"
                              else None))); reflexivity.
  - apply (H2 (URL.mk "" (fun _ => None))); reflexivity.
  - destruct (H3 "unsubscribe" eq_refl) as (e & He & Hmsg).
    rewrite He. f_equal. apply Hmsg. by eexists.
  - apply (H4 "unsubscribe" "me@inbox.omnivore.app"
             (Error "Invalid unsubscribe email address: unsubscribe")
             empty_world).
    reflexivity.
Defined.

(** * More about the scrape *)

(** The events of one scrape, step by step. *)
Lemma getTweetIds_trace (browser : Browser.t) (tweetId author : string)
    (w : World) :
  let pageURL := "https://twitter.com/" +:+ author +:+ "/status/" +:+ tweetId in
  let failed := [ConsoleError "Error getting tweets"; ContextClose] in
  trace (getTweetIds browser tweetId author w).2 =
  trace w ++
  CreateIncognitoBrowserContext ::
  match Browser.createIncognitoBrowserContext browser with
  | Some _ => [ConsoleError "Error getting tweets"]
  | None =>
      NewPage ::
      match Browser.newPage browser with
      | Some _ => failed
      | None =>
          SetViewport 8500 10000 ::
          match Browser.setViewport browser with
          | Some _ => failed
          | None =>
              Goto pageURL 60000 ::
              match Browser.goto browser pageURL with
              | Some _ => failed
              | None =>
                  Evaluate ::
                  match Browser.evaluate browser with
                  | Some _ => failed
                  | None =>
                      match showRepliesButton (Browser.document browser) with
                      | Some _ => [Click; WaitFor 2000; ContextClose]
                      | None => [ContextClose]
                      end
                  end
              end
          end
      end
  end.
Proof.
  intros pageURL failed. unfold getTweetIds. cbv zeta. fold pageURL.
  clearbody pageURL. subst failed.
  unfold bind, attempt, try_finally, try_catch, emit, settle,
    lift, ret, throw, page_script, bind, emit, ret.
  destruct (Browser.createIncognitoBrowserContext browser); cbn;
    [by rewrite <- !app_assoc|].
  destruct (Browser.newPage browser); cbn;
    [destruct (Browser.close browser); cbn; by rewrite <- !app_assoc|].
  destruct (Browser.setViewport browser); cbn;
    [destruct (Browser.close browser); cbn; by rewrite <- !app_assoc|].
  destruct (Browser.goto browser pageURL); cbn;
    [destruct (Browser.close browser); cbn; by rewrite <- !app_assoc|].
  destruct (Browser.evaluate browser); cbn;
    [destruct (Browser.close browser); cbn; by rewrite <- !app_assoc|].
  destruct (showRepliesButton (Browser.document browser)); cbn;
    destruct (Browser.close browser); cbn; by rewrite <- !app_assoc.
Qed.

(** X1. A scrape asks the browser for one context, first of all, and
    releases it on every path: when the context was created, closing it is
    the last thing the scrape does, and it does so once, whether the steps
    in between succeeded or failed; when it was not, nothing is closed. *)
Theorem getTweetIds_releases_context
    (browser : Browser.t) (tweetId author : string) (w : World) :
  let evs := events_of (getTweetIds browser tweetId author) w in
  match Browser.createIncognitoBrowserContext browser with
  | None =>
      ∃ steps,
        evs = CreateIncognitoBrowserContext :: steps ++ [ContextClose] ∧
        Forall (fun e => e ≠ ContextClose ∧ e ≠ CreateIncognitoBrowserContext)
          steps
  | Some _ =>
      evs = [CreateIncognitoBrowserContext; ConsoleError "Error getting tweets"]
  end.
Proof.
  cbv zeta.
  rewrite (events_of_app _ _ _ (getTweetIds_trace browser tweetId author w)).
  destruct (Browser.createIncognitoBrowserContext browser); [done|].
  destruct (Browser.newPage browser).
  { exists [NewPage; ConsoleError "Error getting tweets"].
    split; [done | by repeat constructor]. }
  destruct (Browser.setViewport browser).
  { exists [NewPage; SetViewport 8500 10000;
            ConsoleError "Error getting tweets"].
    split; [done | by repeat constructor]. }
  destruct (Browser.goto browser _).
  { eexists [NewPage; SetViewport 8500 10000; Goto _ 60000;
             ConsoleError "Error getting tweets"].
    split; [done | by repeat constructor]. }
  destruct (Browser.evaluate browser).
  { eexists [NewPage; SetViewport 8500 10000; Goto _ 60000; Evaluate;
             ConsoleError "Error getting tweets"].
    split; [done | by repeat constructor]. }
  destruct (showRepliesButton (Browser.document browser)).
  - eexists [NewPage; SetViewport 8500 10000; Goto _ 60000; Evaluate;
             Click; WaitFor 2000].
    split; [done | by repeat constructor].
  - eexists [NewPage; SetViewport 8500 10000; Goto _ 60000; Evaluate].
    split; [done | by repeat constructor].
Qed.

(** A greedy class loop stops at the end of the run of class characters
    when the rest of the pattern matches there. *)
Lemma star_loop_class_stop {R : Type} (p : ascii → bool) (fuel : nat)
    (u v : string) (c : captures) (k : cont R) (r : R) :
  Str.forallb p u = true →
  match v with EmptyString => True | String b _ => p b = false end →
  String.length (u +:+ v) < fuel →
  k v c = Some r →
  star_loop (run (Class p)) fuel (u +:+ v) c k = Some r.
Proof.
  intros Hu Hv. revert fuel. induction u as [|a u IH]; intros fuel Hlen Hk.
  - destruct fuel as [|fuel]; [simpl in Hlen; lia|]. simpl.
    destruct v as [|b v]; simpl; [done|]. by rewrite Hv.
  - destruct fuel as [|fuel]; [simpl in Hlen; lia|].
    simpl in Hu. apply andb_true_iff in Hu as [Ha Hu]. simpl. rewrite Ha.
    replace (progress (String a (u +:+ v)) (u +:+ v)) with true
      by (symmetry; apply (RegexFacts.progress_app (String a "") (u +:+ v));
          done).
    rewrite IH; [done | done | simpl in Hlen; lia | done].
Qed.

Lemma run_plus_class_stop {R : Type} (p : ascii → bool) (u v : string)
    (c : captures) (k : cont R) (r : R) :
  u ≠ "" → Str.forallb p u = true →
  match v with EmptyString => True | String b _ => p b = false end →
  k v c = Some r →
  run (Plus (Class p)) (u +:+ v) c k = Some r.
Proof.
  intros Hne Hu Hv Hk. destruct u as [|a u]; [done|].
  simpl in Hu. apply andb_true_iff in Hu as [Ha Hu].
  unfold Plus. cbn [run String.append]. rewrite Ha.
  apply star_loop_class_stop; [done | done | lia | done].
Qed.

(** The pattern of the script on an [href] that starts with the status
    path of a user. *)
Lemma exec_HREF_STATUS_relative (username id post : string) :
  username ≠ "" → Str.forallb is_not_slash username = true →
  id ≠ "" → Str.forallb is_digit id = true → ends_digits post = true →
  exec HREF_STATUS ("/" +:+ username +:+ "/status/" +:+ id +:+ post)
  = Some (MatchResult "" ("/" +:+ username +:+ "/status/" +:+ id)
            (<[2 := id]> (<[1 := username]> ∅)) post).
Proof.
  intros Hu1 Hu2 Hi1 Hi2 Hpost.
  assert (match_here HREF_STATUS
            ("/" +:+ username +:+ "/status/" +:+ id +:+ post)
          = Some (post, <[2 := id]> (<[1 := username]> ∅))) as Hhere.
  { unfold match_here. cbv [HREF_STATUS seqs]. cbn [run String.append].
    rewrite Ascii.eqb_refl.
    apply run_plus_class_stop; [done | done | done |].
    rewrite RegexFacts.consumed_app, RegexFacts.run_lits.
    simpl (Str.strip_prefix _ _). cbv beta iota.
    apply run_plus_class_stop; [done | done | |].
    - destruct post as [|b post]; [done|]. simpl in Hpost.
      by apply negb_true_iff in Hpost.
    - by rewrite RegexFacts.consumed_app. }
  assert (∀ i, i < String.length "" →
            match_here HREF_STATUS
              (Str.drop i ("" +:+ "/" +:+ username +:+ "/status/" +:+ id +:+ post))
            = None) as Hleft by (simpl; intros; lia).
  pose proof (RegexFacts.search_leftmost HREF_STATUS "" "" _ post _
                Hleft Hhere) as Hs.
  unfold exec. cbn [String.append] in Hs |- *. rewrite Hs.
  f_equal.
  change (String "/" (username +:+ String "/" (String "s" (String "t"
            (String "a" (String "t" (String "u" (String "s"
              (String "/" (id +:+ post))))))))))
    with ("/" +:+ username +:+ "/status/" +:+ id +:+ post).
  replace ("/" +:+ username +:+ "/status/" +:+ id +:+ post)
    with (("/" +:+ username +:+ "/status/" +:+ id) +:+ post)
    by (str_norm; done).
  rewrite RegexFacts.consumed_app. by str_norm.
Qed.

(** X2. When every step of the scrape resolves, each [time] node of the page
    whose anchor (not a [SPAN]) has an [href] that starts with
    [/author/status/digits] for the requested author puts these digits in
    the list returned. *)
Theorem getTweetIds_includes_author_replies
    (browser : Browser.t) (tweetId author : string) (w : World)
    (timeNode : TimeNode.t) (timeContainerAnchor : Element.t)
    (id post : string) :
  scrape_succeeds browser
    ("https://twitter.com/" +:+ author +:+ "/status/" +:+ tweetId) →
  timeNode ∈ scraped_time_nodes (Browser.document browser) →
  TimeNode.parentElement timeNode = Some timeContainerAnchor →
  Element.tagName timeContainerAnchor ≠ "SPAN" →
  Element.href timeContainerAnchor
    = Some ("/" +:+ author +:+ "/status/" +:+ id +:+ post) →
  author ≠ "" → Str.forallb is_not_slash author = true →
  id ≠ "" → Str.forallb is_digit id = true → ends_digits post = true →
  ∃ ids w',
    getTweetIds browser tweetId author w = (inr ids, w') ∧ id ∈ ids.
Proof.
  intros (Hc & Hn & Hv & Hg & He & Hcl) Hin Hparent Htag Hhref
    Ha1 Ha2 Hi1 Hi2 Hpost.
  destruct (getTweetIds_result browser tweetId author w) as [w' Hres].
  cbv zeta in Hres. rewrite Hc, Hcl, Hn, Hv, Hg, He in Hres.
  eexists _, w'. split; [exact Hres|].
  apply elem_of_collect_ids. right. exists timeNode. split; [done|].
  unfold id_of_time_node. rewrite Hparent, Hhref.
  apply String.eqb_neq in Htag as ->.
  rewrite (exec_HREF_STATUS_relative author id post) by done.
  cbn [groups String.append String.eqb].
  rewrite lookup_insert_eq, lookup_insert_ne, lookup_insert_eq by done.
  by rewrite String.eqb_refl.
Qed.

Lemma getTweetIds_includes_author_replies_witness :
  ∃ ids w',
    getTweetIds working_browser "20" "jack" empty_world = (inr ids, w') ∧
    "30" ∈ ids.
Proof.
  apply (getTweetIds_includes_author_replies working_browser "20" "jack"
           empty_world (anchor "/jack/status/30")
           (Element.mk "A" (Some "/jack/status/30")) "30" "");
    try reflexivity; try done.
  left.
Defined.

(** * More about the two fetch paths *)

(** X3. With the credential set, a recency search that counts no result
    gives the empty thread, not an error, after the one search request,
    whatever else the answer holds. *)
Theorem getRecentTweets_empty_on_no_result
    (env : Env) (conversationId : string) (w : World) (body : TweetsBody.t) :
  falsy (TWITTER_BEARER_TOKEN env) = false →
  http_get_tweets env (recent_search_url conversationId)
    (bearer_headers (default "" (TWITTER_BEARER_TOKEN env))) = inr body →
  TweetsBody.result_count body = 0%Z →
  ∃ w',
    getRecentTweets env conversationId w = (inr [], w') ∧
    events_of (getRecentTweets env conversationId) w
    = [HttpGet (recent_search_url conversationId)
         (bearer_headers (default "" (TWITTER_BEARER_TOKEN env)))].
Proof.
  intros Htoken Hhttp Hcount.
  pose proof (axios_get_tweets_spec env (recent_search_url conversationId)
    (bearer_headers (default "" (TWITTER_BEARER_TOKEN env))) w) as H.
  rewrite Hhttp in H. destruct H as (response & w' & Hrun & Htr & _ & Hc & _).
  assert (getRecentTweets env conversationId w = (inr [], w')) as Hres.
  { unfold getRecentTweets, bind, getTweetThread. rewrite Htoken, Hrun.
    by rewrite Hc, Hcount. }
  exists w'. split; [done|]. apply events_of_app. by rewrite Hres.
Qed.

Lemma getRecentTweets_empty_on_no_result_witness :
  ∃ w',
    getRecentTweets env_all_services "20" empty_world = (inr [], w') ∧
    events_of (getRecentTweets env_all_services "20") empty_world
    = [HttpGet (recent_search_url "20")
         (bearer_headers (default "" (TWITTER_BEARER_TOKEN env_all_services)))].
Proof.
  apply (getRecentTweets_empty_on_no_result env_all_services "20" empty_world
           (TweetsBody.mk [] [] None 0)); reflexivity.
Defined.

(** X4. With the credential set, a failure of the search request is not
    swallowed: the recency path raises it, after that one request and
    without touching the store. *)
Theorem getRecentTweets_propagates_request_failure
    (env : Env) (conversationId : string) (w : World) (e : exn) :
  falsy (TWITTER_BEARER_TOKEN env) = false →
  http_get_tweets env (recent_search_url conversationId)
    (bearer_headers (default "" (TWITTER_BEARER_TOKEN env))) = inl e →
  getRecentTweets env conversationId w
  = (inl e,
     mkWorld
       (trace w ++
        [HttpGet (recent_search_url conversationId)
           (bearer_headers (default "" (TWITTER_BEARER_TOKEN env)))])
       (store w)).
Proof.
  intros Htoken Hhttp.
  pose proof (axios_get_tweets_spec env (recent_search_url conversationId)
    (bearer_headers (default "" (TWITTER_BEARER_TOKEN env))) w) as H.
  rewrite Hhttp in H.
  unfold getRecentTweets, bind, getTweetThread. by rewrite Htoken, H.
Qed.

Lemma getRecentTweets_propagates_request_failure_witness :
  getRecentTweets env_api_down "20" empty_world
  = (inl (Rejected "Request failed with status code 503"),
     mkWorld
       ([] ++
        [HttpGet (recent_search_url "20")
           (bearer_headers (default "" (TWITTER_BEARER_TOKEN env_api_down)))])
       empty_store).
Proof.
  apply (getRecentTweets_propagates_request_failure env_api_down "20"
           empty_world); reflexivity.
Defined.

Lemma getTweetIds_no_http (browser : Browser.t) (tweetId author : string)
    (w : World) :
  existsb is_http_request (events_of (getTweetIds browser tweetId author) w)
  = false.
Proof.
  rewrite (events_of_app _ _ _ (getTweetIds_trace browser tweetId author w)).
  destruct (Browser.createIncognitoBrowserContext browser); [done|].
  destruct (Browser.newPage browser); [done|].
  destruct (Browser.setViewport browser); [done|].
  destruct (Browser.goto browser _); [done|].
  destruct (Browser.evaluate browser); [done|].
  by destruct (showRepliesButton (Browser.document browser)).
Qed.

(** X5. When a step of the scrape fails and the context is released, the
    scrape path gives the empty thread without any HTTP request: the bulk
    resolution is not asked, and so the credential is not even looked at. *)
Theorem getOldTweets_empty_on_failed_scrape
    (env : Env) (browser : Browser.t) (conversationId username : string)
    (w : World) :
  release_succeeds browser →
  scrape_step_fails browser
    ("https://twitter.com/" +:+ username +:+ "/status/" +:+ conversationId) →
  ∃ w',
    getOldTweets env browser conversationId username w = (inr [], w') ∧
    existsb is_http_request
      (events_of (getOldTweets env browser conversationId username) w) = false.
Proof.
  intros Hrel Hfail.
  assert (∃ w1, getTweetIds browser conversationId username w = (inr [], w1))
    as [w1 Hids].
  { destruct (getTweetIds_result browser conversationId username w)
      as [w1 Hres].
    exists w1. rewrite Hres. cbv zeta.
    unfold scrape_step_fails in Hfail. unfold release_succeeds in Hrel.
    destruct (Browser.createIncognitoBrowserContext browser); [done|].
    destruct Hrel as [?| ->]; [done|].
    destruct (Browser.newPage browser), (Browser.setViewport browser),
      (Browser.goto browser _), (Browser.evaluate browser); try done.
    by destruct Hfail as [?|[?|[?|[?|?]]]]. }
  assert (getOldTweets env browser conversationId username w = (inr [], w1))
    as Hres by (unfold getOldTweets, bind; by rewrite Hids).
  exists w1. split; [done|].
  pose proof (getTweetIds_no_http browser conversationId username w) as Hno.
  unfold events_of in *. rewrite Hids in Hno. by rewrite Hres.
Qed.

Lemma getOldTweets_empty_on_failed_scrape_witness :
  ∃ w',
    getOldTweets env_without_token
      (Browser.mk None None None
         (fun _ => Some (Rejected "net::ERR_NAME_NOT_RESOLVED")) None
         thread_page None)
      "20" "jack" empty_world = (inr [], w') ∧
    existsb is_http_request
      (events_of
         (getOldTweets env_without_token
            (Browser.mk None None None
               (fun _ => Some (Rejected "net::ERR_NAME_NOT_RESOLVED")) None
               thread_page None)
            "20" "jack") empty_world) = false.
Proof.
  apply getOldTweets_empty_on_failed_scrape.
  - right. reflexivity.
  - right. right. right. left. done.
Defined.

(** X6. When the scrape found identifiers and the credential is missing,
    the scrape path raises the configuration error once the scrape is
    over: the world is the one the scrape left, with no request added. *)
Theorem getOldTweets_raises_without_credential
    (env : Env) (browser : Browser.t) (conversationId username : string)
    (w w1 : World) (tweetIds : list string) :
  TWITTER_BEARER_TOKEN env = None →
  getTweetIds browser conversationId username w = (inr tweetIds, w1) →
  tweetIds ≠ [] →
  getOldTweets env browser conversationId username w
  = (inl (Error "No Twitter bearer token found"), w1).
Proof.
  intros Htoken Hids Hne. unfold getOldTweets, bind. rewrite Hids.
  destruct tweetIds; [done|]. cbn [length Nat.eqb].
  unfold getTweetsByIds. by rewrite Htoken.
Qed.

Lemma getOldTweets_raises_without_credential_witness :
  getOldTweets env_without_token working_browser "20" "jack" empty_world
  = (inl (Error "No Twitter bearer token found"),
     (getTweetIds working_browser "20" "jack" empty_world).2).
Proof.
  apply (getOldTweets_raises_without_credential env_without_token
           working_browser "20" "jack" empty_world _ ["30"; "20"]).
  - reflexivity.
  - vm_compute. reflexivity.
  - done.
Defined.

(** * More about the thread built from an answer *)

Lemma getTweetsFromResponse_loop_media (response : Tweets.t)
    (data : list TweetData.t) (tweets : list Tweet.t) (w : World) (all : loc) :
  TweetIncludes.media (Tweets.includes response) = Some all →
  all < next_loc (store w) →
  ∃ ts w',
    getTweetsFromResponse_loop response data tweets w = (inr (tweets ++ ts), w') ∧
    (∀ j, j < next_loc (store w) →
          media_arrays (store w') !! j = media_arrays (store w) !! j) ∧
    ∀ i t, ts !! i = Some t →
      TweetIncludes.media (Tweet.includes t) = Some (next_loc (store w) + i) ∧
      media_arrays (store w') !! (next_loc (store w) + i)
      = Some (media_of (Tweet.data t) (read_media (store w) all)).
Proof.
  intros Hall. revert tweets w.
  induction data as [|d rest IH]; intros tweets w Hlt; simpl.
  - exists [], w. rewrite app_nil_r. split_and!; [done | done |].
    intros i t Hi. by rewrite lookup_nil in Hi.
  - unfold bind at 1. rewrite Hall.
    unfold bind, get_store, alloc_media, ret. cbn.
    set (n := next_loc (store w)) in *.
    set (w1 := mkWorld (trace w)
                 (mkStore (users_arrays (store w))
                    (<[n := media_of d (read_media (store w) all)]>
                       (media_arrays (store w))) (S n))).
    destruct (IH (tweets ++ [Tweet.mk d
                (TweetIncludes.mk (TweetIncludes.users (Tweets.includes response))
                   (Some n))]) w1) as (ts & w' & Hrun & Hkeep & Hts);
      [simpl; lia|].
    rewrite Hrun. eexists (_ :: ts), w'. rewrite <- app_assoc.
    split_and!; [done | |].
    + intros j Hj. rewrite Hkeep by (simpl; lia). simpl.
      apply lookup_insert_ne. lia.
    + assert (read_media (store w1) all = read_media (store w) all) as Hread.
      { unfold read_media. simpl. rewrite lookup_insert_ne; [done | lia]. }
      intros [|i] t Hi; simpl in Hi.
      * injection Hi as <-. simpl. rewrite Nat.add_0_r. split; [done|].
        rewrite Hkeep by (simpl; lia). simpl. apply lookup_insert_eq.
      * destruct (Hts i t Hi) as [Hm Hc]. rewrite Hread in Hc.
        change (next_loc (store w1)) with (S n) in Hm, Hc.
        replace (n + S i) with (S n + i) by lia. done.
Qed.

(** X7. When the answer has a media array, every tweet built from it gets
    a new array of its own (the [i]-th tweet the [i]-th new object), which
    holds the media of the answer whose key is among the attachments of
    that tweet's post, in the order of the answer; the array of the answer
    is left as it is. *)
Theorem getTweetsFromResponse_attaches_media
    (response : Tweets.t) (w : World) (all : loc) :
  TweetIncludes.media (Tweets.includes response) = Some all →
  all < next_loc (store w) →
  ∃ ts w',
    getTweetsFromResponse response w = (inr ts, w') ∧
    read_media (store w') all = read_media (store w) all ∧
    ∀ i t, ts !! i = Some t →
      TweetIncludes.media (Tweet.includes t) = Some (next_loc (store w) + i) ∧
      read_media (store w') (next_loc (store w) + i)
      = media_of (Tweet.data t) (read_media (store w) all).
Proof.
  intros Hall Hlt.
  destruct (getTweetsFromResponse_loop_media response (Tweets.data response)
              [] w all Hall Hlt) as (ts & w' & Hrun & Hkeep & Hts).
  exists ts, w'. split_and!; [done | |].
  - unfold read_media. by rewrite Hkeep.
  - intros i t Hi. destruct (Hts i t Hi) as [Hm Hc].
    split; [done|]. unfold read_media at 1. by rewrite Hc.
Qed.

Lemma getTweetsFromResponse_attaches_media_witness :
  ∃ ts w',
    getTweetsFromResponse response_with_media world_with_media = (inr ts, w') ∧
    read_media (store w') 1 = read_media (store world_with_media) 1 ∧
    ∀ i t, ts !! i = Some t →
      TweetIncludes.media (Tweet.includes t)
      = Some (next_loc (store world_with_media) + i) ∧
      read_media (store w') (next_loc (store world_with_media) + i)
      = media_of (Tweet.data t) (read_media (store world_with_media) 1).
Proof.
  apply (getTweetsFromResponse_attaches_media response_with_media
           world_with_media 1); [reflexivity | simpl; lia].
Defined.

Lemma getTweetsFromResponse_loop_no_media (response : Tweets.t)
    (data : list TweetData.t) (tweets : list Tweet.t) (w : World) :
  TweetIncludes.media (Tweets.includes response) = None →
  ∃ ts,
    getTweetsFromResponse_loop response data tweets w = (inr (tweets ++ ts), w) ∧
    Tweet.data <$> ts = data ∧
    Forall (fun t => TweetIncludes.media (Tweet.includes t) = None) ts.
Proof.
  intros Hnone. revert tweets.
  induction data as [|d rest IH]; intros tweets; simpl.
  - exists []. by rewrite app_nil_r.
  - unfold bind at 1. rewrite Hnone. unfold ret.
    match goal with |- context [getTweetsFromResponse_loop _ _ ?acc _] =>
      destruct (IH acc) as (ts & -> & Hdata & Hall) end.
    eexists (_ :: ts). rewrite <- app_assoc.
    split_and!; [done | by simpl; f_equal | by constructor].
Qed.

(** X8. Building the thread from an answer never fails and records no
    event: it returns one tweet per post of the answer, in the order of the
    answer; and when the answer has no media array, no tweet has one and
    the world is not changed at all. *)
Theorem getTweetsFromResponse_one_tweet_per_post
    (response : Tweets.t) (w : World) :
  ∃ ts w',
    getTweetsFromResponse response w = (inr ts, w') ∧
    posts_of ts = Tweets.data response ∧
    trace w' = trace w ∧
    (TweetIncludes.media (Tweets.includes response) = None →
     w' = w ∧
     Forall (fun t => TweetIncludes.media (Tweet.includes t) = None) ts).
Proof.
  destruct (getTweetsFromResponse_spec response w)
    as (ts & w' & Hrun & Htr & _ & Hposts & _).
  exists ts, w'. split_and!; try done.
  intros Hnone.
  destruct (getTweetsFromResponse_loop_no_media response
              (Tweets.data response) [] w Hnone) as (ts' & Hrun' & _ & Hall).
  unfold getTweetsFromResponse in Hrun. rewrite Hrun' in Hrun.
  by injection Hrun as <- <-.
Qed.

(** * More about the handler *)

(** X9. [preHandle] fails exactly when the oEmbed request fails, with the
    error of that request and after it alone; otherwise it returns the URL
    it was given, the title made of the author name and of the text of the
    first paragraph of the embed (the empty text when there is none), and
    a content that holds the HTML of the embed as it came. *)
Theorem preHandle_outcome (env : Env) (url : string) (w : World) :
  match http_get_embed env (embed_url url) with
  | inl e =>
      preHandle env url w
      = (inl e, mkWorld (trace w ++ [HttpGet (embed_url url) []]) (store w))
  | inr embedTweet =>
      ∃ content w',
        preHandle env url w
        = (inr (PreHandleResult.mk content url
                  (titleForTweet (EmbedTweet.author_name embedTweet)
                     (default ""
                        (querySelector_textContent env
                           (EmbedTweet.html embedTweet) "p")))), w') ∧
        ∃ above below,
          content = above +:+ EmbedTweet.html embedTweet +:+ below
  end.
Proof.
  unfold preHandle, getEmbedTweet, axios_get_embed, bind, emit, lift, ret,
    throw.
  destruct (http_get_embed env (embed_url url)) as [e|embedTweet]; [done|].
  eexists _, _. split; [reflexivity|].
  cbn [String.concat].
  match goal with
  | |- ∃ above below, ?l1 +:+ nl +:+ ?l2 +:+ nl +:+ ?l3 +:+ nl +:+ ?l4 +:+ nl
         +:+ ?l5 +:+ nl +:+ ?l6 +:+ nl +:+ ?l7 +:+ nl +:+ ?l8 +:+ nl +:+ ?l9
         +:+ nl +:+ ?l10 +:+ nl +:+ ?l11 +:+ nl +:+ (?ind +:+ ?html) +:+ ?rest
       = _ =>
      exists (l1 +:+ nl +:+ l2 +:+ nl +:+ l3 +:+ nl +:+ l4 +:+ nl +:+ l5 +:+ nl
              +:+ l6 +:+ nl +:+ l7 +:+ nl +:+ l8 +:+ nl +:+ l9 +:+ nl +:+ l10
              +:+ nl +:+ l11 +:+ nl +:+ ind), rest
  end.
  by rewrite !StrFacts.app_assoc.
Qed.

Lemma encode_unit_safe (a : ascii) :
  Str.forallb uri_safe (encode_unit a) = true.
Proof. destruct a as [[] [] [] [] [] [] [] []]; vm_compute; reflexivity. Qed.

Lemma forallb_str_app (p : ascii → bool) (s1 s2 : string) :
  Str.forallb p (s1 +:+ s2) = Str.forallb p s1 && Str.forallb p s2.
Proof.
  induction s1 as [|a s1 IH]; simpl; [done|]. by rewrite IH, andb_assoc.
Qed.

Lemma encodeURIComponent_safe (s : string) :
  Str.forallb uri_safe (encodeURIComponent s) = true.
Proof.
  induction s as [|a s IH]; simpl; [done|].
  by rewrite forallb_str_app, encode_unit_safe, IH.
Qed.

(** X10. The URL asked of the oEmbed service is the endpoint, [?url=] and
    a value made of unreserved characters and percent signs only, and the
    URL of the recency search holds the conversation id in such a value: no
    [&], [=], [#], [?], [/] or space of the input reaches the query, so
    the input cannot add or change a parameter. *)
Theorem request_urls_encode_their_input (input : string) :
  (∃ value,
     embed_url input = "https://publish.twitter.com/oembed?url=" +:+ value ∧
     Str.forallb uri_safe value = true) ∧
  (∃ value,
     recent_search_url input
     = "https://api.twitter.com/2/tweets/search/recent?query=conversation_id%3A"
       +:+ value +:+ getTweetFields +:+ "&max_results=100" ∧
     Str.forallb uri_safe value = true).
Proof.
  split.
  - exists (encodeURIComponent input). split; [reflexivity|].
    apply encodeURIComponent_safe.
  - exists (encodeURIComponent input). split; [|apply encodeURIComponent_safe].
    unfold recent_search_url. cbv zeta.
    change (encodeURIComponent ("conversation_id:" +:+ input))
      with ("conversation_id%3A" +:+ encodeURIComponent input).
    by str_norm.
Qed.

(** X11. The URL predicate looks for the status shape anywhere: a URL it
    accepts is still accepted with any text before it and after it. *)
Theorem shouldPreHandle_inside_any_text (url above below : string) :
  shouldPreHandle url = true →
  shouldPreHandle (above +:+ url +:+ below) = true.
Proof.
  unfold shouldPreHandle, test.
  destruct (exec TWITTER_URL_MATCH url) as [m|] eqn:E; [intros _ | done].
  apply RegexFacts.search_Some in E as (skipped & s' & -> & _ & Hh & _ & _).
  apply RegexFacts.match_here_Some in Hh as (s1 & -> & Hm).
  assert (is_Some (exec TWITTER_URL_MATCH
            (above +:+ (skipped +:+ s1 +:+ after m) +:+ below))) as [m' ->];
    [|done].
  replace (above +:+ (skipped +:+ s1 +:+ after m) +:+ below)
    with ((above +:+ skipped) +:+ (s1 +:+ (after m +:+ below)))
    by (by rewrite !StrFacts.app_assoc).
  apply RegexFacts.search_is_Some. by eapply RegexFacts.match_here_is_Some.
Qed.

Lemma shouldPreHandle_inside_any_text_witness :
  shouldPreHandle
    ("see https://" +:+ "twitter.com/jack/status/20" +:+ "?s=20 for more")
  = true.
Proof.
  apply shouldPreHandle_inside_any_text. vm_compute. reflexivity.
Defined.

(** X12. The lookup of one tweet builds its URL first, from the identifier
    as it comes, and asks for what [new URL] makes of that text.  When
    [new URL] throws, that is the outcome.  Otherwise the credential is
    checked like in the other fetches: without it, the configuration error
    is raised and no request is recorded; with it, one request with the
    bearer header goes to the serialised URL, what that request raises is
    raised, and otherwise the post of the answer comes back with its
    users. *)
Theorem getTweetById_outcome (env : Env)
    (toString : string → option string)
    (http_get_tweet : string → list (string * string) → exn + TweetBody.t)
    (id : string) (w : World) :
  let input := "https://api.twitter.com/2/tweets/" +:+ id +:+ "?" +:+ getTweetFields in
  let headers := bearer_headers (default "" (TWITTER_BEARER_TOKEN env)) in
  match toString input with
  | None =>
      getTweetById env toString http_get_tweet id w
      = (inl (TypeError "Invalid URL"), w)
  | Some apiUrl =>
      if falsy (TWITTER_BEARER_TOKEN env) then
        getTweetById env toString http_get_tweet id w
        = (inl (Error "No Twitter bearer token found"), w)
      else
        match http_get_tweet apiUrl headers with
        | inl e =>
            getTweetById env toString http_get_tweet id w
            = (inl e, mkWorld (trace w ++ [HttpGet apiUrl headers]) (store w))
        | inr body =>
            ∃ tweet w',
              getTweetById env toString http_get_tweet id w = (inr tweet, w') ∧
              trace w' = trace w ++ [HttpGet apiUrl headers] ∧
              Tweet.data tweet = TweetBody.data body ∧
              read_users (store w') (TweetIncludes.users (Tweet.includes tweet))
              = TweetBody.users body
        end
  end.
Proof.
  cbv zeta. unfold getTweetById, tweet_by_id_url. cbv zeta.
  destruct (toString _) as [apiUrl|]; [|done].
  destruct (falsy (TWITTER_BEARER_TOKEN env)); [done|].
  unfold bind, emit, lift, alloc_users, alloc_media, ret, throw, read_users.
  destruct (http_get_tweet _ _) as [e|body]; cbn; [done|].
  destruct (TweetBody.media body) as [l|]; cbn;
    eexists _, _; (split; [reflexivity|]); cbn;
    by rewrite ?lookup_insert_eq.
Qed.

(** X21. The extraction from a URL gives a result exactly on the URLs the
    handler accepts. *)
Theorem tweetIdFromStatusUrl_defined_iff_handled (url : string) :
  is_Some (tweetIdFromStatusUrl url) ↔ shouldPreHandle url = true.
Proof.
  pose proof (tweetIdFromStatusUrl_None url) as H.
  destruct (tweetIdFromStatusUrl url), (shouldPreHandle url);
    split; try done.
  - intros _. by destruct H as [_ H]; specialize (H eq_refl).
  - intros _. by destruct H as [H _]; specialize (H eq_refl).
Qed.

(** X22. Whatever the extraction from a URL returns is the handle of the
    status shape found in the URL, the run of word characters between the
    domain (and the optional [#!/]) and [/status]; it is not the run of
    digits after [/status/]. *)
Theorem tweetIdFromStatusUrl_gives_handle_segment (url result : string) :
  tweetIdFromStatusUrl url = Some result →
  ∃ pre domain legacy es digits rest,
    url = pre +:+ domain +:+ ".com/" +:+ legacy +:+ result +:+ "/status"
              +:+ es +:+ "/" +:+ digits +:+ rest ∧
    (domain = "twitter" ∨ domain = "x") ∧
    (legacy = "" ∨ legacy = "#!/") ∧
    result ≠ "" ∧ Str.forallb is_word result = true ∧
    (es = "" ∨ es = "es") ∧
    digits ≠ "" ∧ Str.forallb is_digit digits = true.
Proof. apply tweetIdFromStatusUrl_is_handle. Qed.

Lemma tweetIdFromStatusUrl_gives_handle_segment_witness :
  ∃ pre domain legacy es digits rest,
    "https://x.com/jack/statuses/20/photo/1"
    = pre +:+ domain +:+ ".com/" +:+ legacy +:+ "jack" +:+ "/status"
          +:+ es +:+ "/" +:+ digits +:+ rest ∧
    (domain = "twitter" ∨ domain = "x") ∧
    (legacy = "" ∨ legacy = "#!/") ∧
    "jack" ≠ "" ∧ Str.forallb is_word "jack" = true ∧
    (es = "" ∨ es = "es") ∧
    digits ≠ "" ∧ Str.forallb is_digit digits = true.
Proof.
  apply (tweetIdFromStatusUrl_gives_handle_segment
           "https://x.com/jack/statuses/20/photo/1" "jack").
  vm_compute. reflexivity.
Defined.

(** * More about unsubscribing by mail *)

(** X13. Whatever [parseUnsubscribeMailTo] returns is usable: the address
    is the input without the first occurrence of the search string that
    [new URL] found, it is not empty and holds an [@], and the subject is
    never empty (a missing or empty subject parameter gives
    [Unsubscribe]). *)
Theorem parseUnsubscribeMailTo_result (env : Env)
    (unsubscribeMailTo : string) (result : MailTo.t) :
  parseUnsubscribeMailTo env unsubscribeMailTo = inr result →
  (∃ parsed,
     new_URL env ("mailto://" +:+ unsubscribeMailTo) = Some parsed ∧
     MailTo.to result = remove_first (URL.search parsed) unsubscribeMailTo) ∧
  MailTo.to result ≠ "" ∧
  Str.includes_char "@" (MailTo.to result) = true ∧
  MailTo.subject result ≠ "".
Proof.
  unfold parseUnsubscribeMailTo.
  destruct (new_URL env ("mailto://" +:+ unsubscribeMailTo)) as [parsed|];
    [|done].
  destruct (String.eqb (remove_first (URL.search parsed) unsubscribeMailTo) "")
    eqn:Hempty; [done|].
  destruct (Str.includes_char "@"
              (remove_first (URL.search parsed) unsubscribeMailTo)) eqn:Hat;
    [|done].
  intros [= <-]. cbn [MailTo.to MailTo.subject]. split_and!.
  - by exists parsed.
  - by apply String.eqb_neq.
  - done.
  - destruct (URL.searchParams_get parsed "subject") as [v|]; [|done].
    destruct (String.eqb v "") eqn:Hv; [done|]. by apply String.eqb_neq.
Qed.

Lemma parseUnsubscribeMailTo_result_witness :
  (∃ parsed,
     new_URL env_mail ("mailto://" +:+ "list@example.com?subject=Stop")
     = Some parsed ∧
     MailTo.to (MailTo.mk "list@example.com" "Stop")
     = remove_first (URL.search parsed) "list@example.com?subject=Stop") ∧
  MailTo.to (MailTo.mk "list@example.com" "Stop") ≠ "" ∧
  Str.includes_char "@" (MailTo.to (MailTo.mk "list@example.com" "Stop"))
  = true ∧
  MailTo.subject (MailTo.mk "list@example.com" "Stop") ≠ "".
Proof.
  apply (parseUnsubscribeMailTo_result env_mail
           "list@example.com?subject=Stop").
  reflexivity.
Defined.

Lemma prefix_refl (s : string) : String.prefix s s = true.
Proof.
  induction s as [|a s IH]; [done|]. simpl.
  by destruct (ascii_dec a a).
Qed.

Lemma index_after_clean_prefix (mark : ascii) (q addr : string) :
  Str.includes_char mark addr = false →
  String.index 0 (String mark q) (addr +:+ String mark q)
  = Some (String.length addr).
Proof.
  unfold Str.includes_char. induction addr as [|a addr IH]; intros Hclean.
  - cbn [String.append String.index]. by rewrite prefix_refl.
  - simpl in Hclean. apply orb_false_iff in Hclean as [Ha Hclean].
    cbn [String.append String.index].
    assert (String.prefix (String mark q) (String a (addr +:+ String mark q))
            = false) as ->.
    { simpl. destruct (ascii_dec mark a) as [->|]; [|done].
      by rewrite Ascii.eqb_refl in Ha. }
    by rewrite (IH Hclean).
Qed.

Lemma drop_whole (s1 s2 : string) :
  Str.drop (String.length s1 + String.length s2) (s1 +:+ s2) = "".
Proof.
  induction s1 as [|a s1 IH]; simpl; [|done].
  induction s2 as [|b s2 IH2]; simpl; done.
Qed.

(** X14. An address followed by a query is split at the query: when the
    input is an address without [?] and with an [@], then [?] and a query,
    and [new URL] reports that query as its search string, the result is
    that address, with the subject parameter as subject, or [Unsubscribe]
    when the parameter is missing or empty. *)
Theorem parseUnsubscribeMailTo_splits_at_query (env : Env)
    (address query : string) (parsed : URL.t) :
  new_URL env ("mailto://" +:+ address +:+ "?" +:+ query) = Some parsed →
  URL.search parsed = "?" +:+ query →
  Str.includes_char "?" address = false →
  Str.includes_char "@" address = true →
  parseUnsubscribeMailTo env (address +:+ "?" +:+ query)
  = inr (MailTo.mk address
           (match URL.searchParams_get parsed "subject" with
            | Some subject => if String.eqb subject "" then "Unsubscribe"
                              else subject
            | None => "Unsubscribe"
            end)).
Proof.
  intros Hurl Hsearch Hclean Hat. unfold parseUnsubscribeMailTo.
  rewrite Hurl, Hsearch.
  assert (remove_first ("?" +:+ query) (address +:+ "?" +:+ query) = address)
    as ->.
  { unfold remove_first. cbn [String.append].
    rewrite (index_after_clean_prefix "?" query address Hclean).
    rewrite StrFacts.take_app_length.
    change (String.length address + String.length (String "?" query))
      with (String.length address + String.length (String "?" query)).
    by rewrite drop_whole, StrFacts.app_nil_r. }
  rewrite Hat. destruct address as [|a address]; [done|]. done.
Qed.

Lemma parseUnsubscribeMailTo_splits_at_query_witness :
  parseUnsubscribeMailTo env_mail ("list@example.com" +:+ "?" +:+ "subject=Stop")
  = inr (MailTo.mk "list@example.com" "Stop").
Proof.
  apply (parseUnsubscribeMailTo_splits_at_query env_mail "list@example.com"
           "subject=Stop"
           (URL.mk "?subject=Stop"
              (fun name => if String.eqb name "subject" then Some "Stop"
                           else None))); reflexivity.
Defined.

(** X15. [sendUnsubscribeEmail] never raises and leaves the store alone.
    It answers [true] exactly when the address parsed and the mailer
    resolved to [true] for the one message made of the parsed address and
    subject, the fixed text and the newsletter address; and it hands at
    most one message to the mailer. *)
Theorem sendUnsubscribeEmail_outcome (env : Env)
    (unsubscribeMailTo newsletterEmail : string) (w : World) :
  ∃ sent w',
    sendUnsubscribeEmail env unsubscribeMailTo newsletterEmail w
    = (inr sent, w') ∧
    store w' = store w ∧
    (sent = true ↔
     ∃ parsed,
       parseUnsubscribeMailTo env unsubscribeMailTo = inr parsed ∧
       sendEmail env
         (MailData.mk (MailTo.to parsed) (MailTo.subject parsed)
            UNSUBSCRIBE_EMAIL_TEXT newsletterEmail) = inr true) ∧
    length (List.filter is_send_email
              (events_of
                 (sendUnsubscribeEmail env unsubscribeMailTo newsletterEmail)
                 w)) ≤ 1.
Proof.
  unfold events_of, sendUnsubscribeEmail, try_catch, bind, lift, send_mail,
    emit, ret, throw.
  destruct (parseUnsubscribeMailTo env unsubscribeMailTo) as [e|parsed]; cbn.
  - eexists false, _. split_and!; [done | done | |].
    + split; [done | by intros (? & ? & _)].
    + rewrite drop_app_length. simpl. lia.
  - destruct (sendEmail env _) as [e|[|]] eqn:Hsend; cbn.
    + eexists false, _. split_and!; [done | done | |].
      * split; [done|]. intros (p & [= <-] & Hp). congruence.
      * rewrite <- app_assoc, drop_app_length. simpl. lia.
    + eexists true, _. split_and!; [done | done | |].
      * split; [|done]. intros _. by exists parsed.
      * rewrite drop_app_length. simpl. lia.
    + eexists false, _. split_and!; [done | done | |].
      * split; [done|]. intros (p & [= <-] & Hp). congruence.
      * rewrite <- app_assoc, drop_app_length. simpl. lia.
Qed.

(** * The rest of the subscription service *)

Lemma service_events_of_app {A : Type} (m : Svc A) (tr l : list service_event) :
  (m tr).2 = tr ++ l → service_events_of m tr = l.
Proof. unfold service_events_of. intros ->. apply drop_app_length. Qed.

(** X16. [sendUnsubscribeHttpRequest] never raises: it sends one GET with
    a timeout of five seconds and answers whether that request resolved;
    a failure is only logged. *)
Theorem sendUnsubscribeHttpRequest_outcome (repo : Repository.t)
    (url : string) (tr : list service_event) :
  (sendUnsubscribeHttpRequest repo url tr).1
  = inr (match Repository.axios_get repo url 5000 with
         | None => true
         | Some _ => false
         end) ∧
  ∃ logs,
    service_events_of (sendUnsubscribeHttpRequest repo url) tr
    = TimedGet url 5000 :: logs ∧
    Forall (fun e => is_mail e = true) logs.
Proof.
  unfold service_events_of, sendUnsubscribeHttpRequest, stry_catch, sbind,
    semit, ssettle, sret, sthrow, logger_info, semit.
  destruct (Repository.axios_get repo url 5000) as [[m|m|m]|]; cbn;
    (split; [done|]); rewrite <- ?app_assoc, drop_app_length;
    eexists; (split; [reflexivity|]); by repeat constructor.
Qed.

Lemma sendUnsubscribeEmail_returns (env : Env)
    (unsubscribeMailTo newsletterEmail : string) (w : World) :
  ∃ sent w',
    sendUnsubscribeEmail env unsubscribeMailTo newsletterEmail w
    = (inr sent, w').
Proof.
  unfold sendUnsubscribeEmail, try_catch, bind, lift, send_mail, emit, ret,
    throw.
  destruct (parseUnsubscribeMailTo env unsubscribeMailTo) as [e|parsed]; cbn;
    [by eexists _, _|].
  destruct (sendEmail env _) as [e|[|]]; cbn; by eexists _, _.
Qed.

Lemma Forall_is_mail_fmap (l : list event) :
  Forall (fun e => is_mail e = true) (Mail <$> l).
Proof. induction l; by constructor. Qed.

(** The trace of one [unsubscribe]: the events of the mail, if any, then
    the status update, whose outcome is the outcome of [unsubscribe]. *)
Lemma unsubscribe_trace (env : Env) (repo : Repository.t)
    (subscription : Subscription.t) (tr : list service_event) :
  ∃ mails,
    unsubscribe env repo subscription tr
    = (match Repository.update_status repo (Subscription.id subscription)
               Unsubscribed with
       | None => inr tt
       | Some e => inl e
       end,
       tr ++ mails ++ [UpdateStatus (Subscription.id subscription) Unsubscribed]) ∧
    Forall (fun e => is_mail e = true) mails ∧
    (mails ≠ [] ↔ wants_mail subscription = true).
Proof.
  unfold unsubscribe, wants_mail.
  assert (∀ tr0,
    (let+ _ := semit (UpdateStatus (Subscription.id subscription) Unsubscribed) in
     ssettle (Repository.update_status repo (Subscription.id subscription)
                Unsubscribed)) tr0
    = (match Repository.update_status repo (Subscription.id subscription)
               Unsubscribed with
       | None => inr tt
       | Some e => inl e
       end,
       tr0 ++ [UpdateStatus (Subscription.id subscription) Unsubscribed]))
    as Hupdate.
  { intros tr0. unfold sbind, semit, ssettle, sret, sthrow.
    by destruct (Repository.update_status repo _ _). }
  destruct (is_newsletter (Subscription.type subscription)); cbn [andb].
  - destruct (Subscription.unsubscribeMailTo subscription) as [mailto|].
    + destruct (Subscription.newsletterEmail subscription) as [ne|].
      * destruct (String.eqb mailto "") eqn:Hempty; cbn [negb].
        -- exists []. unfold sbind at 1. unfold sret at 1.
           rewrite Hupdate. by split_and!.
        -- destruct (sendUnsubscribeEmail_returns env mailto
                       (NewsletterEmail.address ne) empty_world)
             as (sent & w' & Hsend).
           exists ((Mail <$> trace w') ++ [Mail (LoggerInfo "Unsubscribe email sent")]).
           unfold sbind at 1. unfold sbind at 1. unfold mail_layer.
           rewrite Hsend. unfold logger_info, semit at 1. rewrite Hupdate.
           split_and!.
           ++ by rewrite <- !app_assoc.
           ++ apply Forall_app. split; [apply Forall_is_mail_fmap|].
              by repeat constructor.
           ++ split; [done|]. intros _. by destruct (Mail <$> trace w').
      * exists []. unfold sbind at 1. unfold sret at 1.
        rewrite Hupdate. by split_and!.
    + exists []. unfold sbind at 1. unfold sret at 1.
      rewrite Hupdate. by split_and!.
  - exists []. unfold sbind at 1. unfold sret at 1.
    rewrite Hupdate. by split_and!.
Qed.

(** X17. [unsubscribe] always asks the repository to mark the subscription
    as unsubscribed, once and as its last step, whether a mail was sent,
    failed or was not wanted; its outcome is the outcome of that update.
    Before it come only events of the mail layer, and there are some
    exactly when the subscription is a newsletter with a non-empty
    unsubscribe address and a newsletter email. *)
Theorem unsubscribe_always_updates_status (env : Env) (repo : Repository.t)
    (subscription : Subscription.t) (tr : list service_event) :
  (unsubscribe env repo subscription tr).1
  = match Repository.update_status repo (Subscription.id subscription)
            Unsubscribed with
    | None => inr tt
    | Some e => inl e
    end ∧
  ∃ mails,
    service_events_of (unsubscribe env repo subscription) tr
    = mails ++ [UpdateStatus (Subscription.id subscription) Unsubscribed] ∧
    Forall (fun e => is_mail e = true) mails ∧
    (mails ≠ [] ↔ wants_mail subscription = true).
Proof.
  destruct (unsubscribe_trace env repo subscription tr)
    as (mails & Hrun & Hmails & Hwant).
  split; [by rewrite Hrun|]. exists mails. split_and!; try done.
  apply service_events_of_app. by rewrite Hrun.
Qed.

Lemma status_updates_mails (l : list service_event) :
  Forall (fun e => is_mail e = true) l → status_updates l = [].
Proof.
  induction 1 as [|e l He _ IH]; [done|]. unfold status_updates in *. simpl.
  destruct e; try done.
Qed.

Lemma status_updates_app (l1 l2 : list service_event) :
  status_updates (l1 ++ l2) = status_updates l1 ++ status_updates l2.
Proof. apply omap_app. Qed.

Lemma unsubscribe_each_trace (env : Env) (repo : Repository.t)
    (subscriptions : list Subscription.t) (tr : list service_event) :
  ∃ evs,
    unsubscribe_each env repo subscriptions tr = (inr tt, tr ++ evs) ∧
    status_updates evs
    = (fun s => (Subscription.id s, Unsubscribed)) <$> subscriptions.
Proof.
  revert tr. induction subscriptions as [|s rest IH]; intros tr.
  - exists []. by rewrite app_nil_r.
  - destruct (unsubscribe_trace env repo s tr) as (mails & Hrun & Hmails & _).
    simpl. unfold sbind at 1. unfold stry_catch. rewrite Hrun.
    destruct (Repository.update_status repo (Subscription.id s) Unsubscribed).
    + unfold logger_info, semit.
      match goal with |- context [unsubscribe_each _ _ _ ?tr0] =>
        destruct (IH tr0) as (evs & -> & Hevs) end.
      exists (mails ++ [UpdateStatus (Subscription.id s) Unsubscribed]
              ++ [Mail (LoggerInfo "Failed to unsubscribe")] ++ evs).
      split; [by rewrite <- !app_assoc|].
      rewrite !status_updates_app, (status_updates_mails mails Hmails), Hevs.
      done.
    + match goal with |- context [unsubscribe_each _ _ _ ?tr0] =>
        destruct (IH tr0) as (evs & -> & Hevs) end.
      exists (mails ++ [UpdateStatus (Subscription.id s) Unsubscribed] ++ evs).
      split; [by rewrite <- !app_assoc|].
      rewrite !status_updates_app, (status_updates_mails mails Hmails), Hevs.
      done.
Qed.

(** X18. [unsubscribeAll] never raises.  It looks the subscriptions of the
    newsletter email up once; when that fails it updates nothing; otherwise
    it asks for the status update of every subscription found, each once
    and in the order found, also after an update or a mail before it
    failed. *)
Theorem unsubscribeAll_updates_every_subscription (env : Env)
    (repo : Repository.t) (newsletterEmail : NewsletterEmail.t)
    (tr : list service_event) :
  (unsubscribeAll env repo newsletterEmail tr).1 = inr tt ∧
  ∃ evs,
    service_events_of (unsubscribeAll env repo newsletterEmail) tr
    = FindSubscriptions (NewsletterEmail.user_id newsletterEmail)
        (NewsletterEmail.id newsletterEmail) :: evs ∧
    status_updates evs
    = match Repository.find repo (NewsletterEmail.user_id newsletterEmail)
              (NewsletterEmail.id newsletterEmail) with
      | inl _ => []
      | inr subscriptions =>
          (fun s => (Subscription.id s, Unsubscribed)) <$> subscriptions
      end.
Proof.
  unfold service_events_of, unsubscribeAll, stry_catch. cbv zeta.
  unfold sbind at 1. unfold semit at 1. unfold sbind at 1.
  destruct (Repository.find repo _ _) as [e|subscriptions]; cbn.
  - split; [done|]. rewrite <- app_assoc, drop_app_length.
    by eexists.
  - match goal with |- context [unsubscribe_each _ _ _ ?tr0] =>
      destruct (unsubscribe_each_trace env repo subscriptions tr0)
        as (evs & -> & Hevs) end.
    split; [done|]. cbn. rewrite <- app_assoc, drop_app_length.
    by exists evs.
Qed.

(** [saveSubscription], by cases on what the repository answers. *)
Lemma saveSubscription_cases (repo : Repository.t)
    (input : SaveSubscriptionInput.t) (tr : list service_event) :
  let name := SaveSubscriptionInput.name input in
  let userId := SaveSubscriptionInput.userId input in
  let data :=
    SubscriptionData.mk (SaveSubscriptionInput.unsubscribeHttpUrl input)
      (SaveSubscriptionInput.unsubscribeMailTo input)
      (SaveSubscriptionInput.icon input) (Repository.new_Date repo) in
  saveSubscription repo input tr =
  match Repository.findOne repo name userId with
  | inl e => (inl e, tr ++ [FindOneByName name userId])
  | inr (Some existing) =>
      (match Repository.update repo (Subscription.id existing) userId data with
       | Some e => inl e
       | None => inr (Subscription.id existing)
       end,
       tr ++ [FindOneByName name userId;
              UpdateSubscription (Subscription.id existing) userId data])
  | inr None =>
      (match Repository.save repo data name
               (SaveSubscriptionInput.newsletterEmailId input) userId
               Newsletter with
       | inl e => inl e
       | inr saved => inr (Subscription.id saved)
       end,
       tr ++ [FindOneByName name userId;
              SaveSubscription data name
                (SaveSubscriptionInput.newsletterEmailId input) userId
                Newsletter])
  end.
Proof.
  cbv zeta. unfold saveSubscription, sbind, semit, slift, ssettle, sret, sthrow.
  destruct (Repository.findOne repo _ _) as [e|[existing|]]; cbn; [done| |].
  - destruct (Repository.update repo _ _ _); cbn; by rewrite <- app_assoc.
  - destruct (Repository.save repo _ _ _ _ _); cbn; by rewrite <- app_assoc.
Qed.

(** X19. An id returned by [saveSubscription] is the id of the
    subscription found by name, which was then updated while nothing was
    saved, or, only when none was found, the id of the newsletter
    subscription saved instead, while nothing was updated. *)
Theorem saveSubscription_returns_existing_or_saved (repo : Repository.t)
    (input : SaveSubscriptionInput.t) (tr tr' : list service_event)
    (id : string) :
  saveSubscription repo input tr = (inr id, tr') →
  let name := SaveSubscriptionInput.name input in
  let userId := SaveSubscriptionInput.userId input in
  let newsletterEmailId := SaveSubscriptionInput.newsletterEmailId input in
  let data :=
    SubscriptionData.mk (SaveSubscriptionInput.unsubscribeHttpUrl input)
      (SaveSubscriptionInput.unsubscribeMailTo input)
      (SaveSubscriptionInput.icon input) (Repository.new_Date repo) in
  (∃ existing,
     Repository.findOne repo name userId = inr (Some existing) ∧
     id = Subscription.id existing ∧
     tr' = tr ++ [FindOneByName name userId;
                  UpdateSubscription (Subscription.id existing) userId data]) ∨
  (Repository.findOne repo name userId = inr None ∧
   ∃ saved,
     Repository.save repo data name newsletterEmailId userId Newsletter
     = inr saved ∧
     id = Subscription.id saved ∧
     tr' = tr ++ [FindOneByName name userId;
                  SaveSubscription data name newsletterEmailId userId
                    Newsletter]).
Proof.
  intros Hrun. cbv zeta.
  pose proof (saveSubscription_cases repo input tr) as H. cbv zeta in H.
  rewrite Hrun in H. clear Hrun.
  destruct (Repository.findOne repo _ _) as [e|[existing|]]; [done| |].
  - left. exists existing.
    destruct (Repository.update repo _ _ _); [done|].
    by injection H as -> ->.
  - right. split; [done|].
    destruct (Repository.save repo _ _ _ _ _) as [e|saved]; [done|].
    exists saved. by injection H as -> ->.
Qed.

Lemma saveSubscription_returns_existing_or_saved_witness :
  (∃ existing,
     Repository.findOne example_repository "Weekly" "user-1"
     = inr (Some existing) ∧
     "sub-1" = Subscription.id existing ∧
     (saveSubscription example_repository weekly_input []).2
     = [] ++ [FindOneByName "Weekly" "user-1";
              UpdateSubscription (Subscription.id existing) "user-1"
                (SubscriptionData.mk None (Some "list@example.com?subject=Stop")
                   None "2023-10-02T12:00:00.000Z")]) ∨
  (Repository.findOne example_repository "Weekly" "user-1" = inr None ∧
   ∃ saved,
     Repository.save example_repository
       (SubscriptionData.mk None (Some "list@example.com?subject=Stop")
          None "2023-10-02T12:00:00.000Z")
       "Weekly" "ne-1" "user-1" Newsletter = inr saved ∧
     "sub-1" = Subscription.id saved ∧
     (saveSubscription example_repository weekly_input []).2
     = [] ++ [FindOneByName "Weekly" "user-1";
              SaveSubscription
                (SubscriptionData.mk None (Some "list@example.com?subject=Stop")
                   None "2023-10-02T12:00:00.000Z")
                "Weekly" "ne-1" "user-1" Newsletter]).
Proof.
  apply (saveSubscription_returns_existing_or_saved example_repository
           weekly_input []).
  reflexivity.
Defined.

(** * The bulk action mutation *)

(** X20. [bulkActionMutation] never raises and leaves the store alone: it
    answers [true] exactly when the fetcher resolved with a response whose
    [bulkAction] says [success]; an undefined response, a response with
    error codes only and a failure of the fetcher all give [false]. *)
Theorem bulkActionMutation_outcome
    (gqlFetcher : string → BulkAction → string
                  → exn + option BulkActionResponse.t)
    (action : BulkAction) (query : string) (w : World) :
  ∃ success w',
    bulkActionMutation gqlFetcher action query w = (inr success, w') ∧
    store w' = store w ∧
    (success = true ↔
     ∃ response,
       gqlFetcher bulkAction_mutation action query = inr (Some response) ∧
       BulkActionResponse.bulkAction response = Some true).
Proof.
  unfold bulkActionMutation, try_catch, bind, emit, lift, ret, throw.
  cbv zeta.
  destruct (gqlFetcher bulkAction_mutation action query)
    as [e|[[codes [[|]|]]|]]; cbn; eexists _, _;
    (split_and!; [reflexivity | done |]).
  - split; [done | by intros (? & ? & _)].
  - split; [by eexists | done].
  - split; [done | by intros (? & [= <-] & ?)].
  - split; [done | by intros (? & [= <-] & ?)].
  - split; [done | by intros (? & ? & _)].
Qed.

(** * Order of the scrape, and a query that is not found *)

Lemma collect_ids_omap (author : string) (timeNodes : list TimeNode.t)
    (ids : list string) :
  collect_ids author timeNodes ids
  = ids ++ omap (id_of_time_node author) timeNodes.
Proof.
  revert ids; induction timeNodes as [|n rest IH]; intros ids; simpl.
  - by rewrite app_nil_r.
  - destruct (id_of_time_node author n) as [id|]; rewrite IH;
      [by rewrite <- app_assoc | done].
Qed.

(** X23. When every step of the scrape resolves, the identifiers come back
    in the order of the [time] nodes of the page, one per node of the
    author, a node met twice giving its identifier twice: the scrape
    neither sorts nor removes duplicates. *)
Theorem getTweetIds_keeps_page_order
    (browser : Browser.t) (tweetId author : string) (w : World) :
  scrape_succeeds browser
    ("https://twitter.com/" +:+ author +:+ "/status/" +:+ tweetId) →
  (getTweetIds browser tweetId author w).1
  = inr (omap (id_of_time_node author)
           (scraped_time_nodes (Browser.document browser))).
Proof.
  intros (Hc & Hn & Hv & Hg & He & Hcl).
  destruct (getTweetIds_result browser tweetId author w) as [w' Hres].
  cbv zeta in Hres. rewrite Hc, Hcl, Hn, Hv, Hg, He in Hres.
  rewrite Hres. cbn [fst]. by rewrite collect_ids_omap.
Qed.

Lemma getTweetIds_keeps_page_order_witness :
  (getTweetIds working_browser "20" "jack" empty_world).1
  = inr (omap (id_of_time_node "jack")
           (scraped_time_nodes (Browser.document working_browser))).
Proof.
  apply getTweetIds_keeps_page_order. by split_and!.
Defined.

(** X24. When the search string reported by [new URL] does not occur as
    such in the input (the parser rewrote the query), nothing is removed:
    an input with an [@] is returned whole, query included, as the
    address. *)
Theorem parseUnsubscribeMailTo_keeps_unfound_query (env : Env)
    (unsubscribeMailTo : string) (parsed : URL.t) :
  new_URL env ("mailto://" +:+ unsubscribeMailTo) = Some parsed →
  String.index 0 (URL.search parsed) unsubscribeMailTo = None →
  Str.includes_char "@" unsubscribeMailTo = true →
  ∃ subject,
    parseUnsubscribeMailTo env unsubscribeMailTo
    = inr (MailTo.mk unsubscribeMailTo subject).
Proof.
  intros Hurl Hindex Hat. unfold parseUnsubscribeMailTo, remove_first.
  rewrite Hurl, Hindex, Hat.
  destruct unsubscribeMailTo as [|a rest]; [done|]. by eexists.
Qed.

Lemma parseUnsubscribeMailTo_keeps_unfound_query_witness :
  ∃ subject,
    parseUnsubscribeMailTo env_mail_encoded
      "list@example.com?subject=Please stop"
    = inr (MailTo.mk "list@example.com?subject=Please stop" subject).
Proof.
  apply (parseUnsubscribeMailTo_keeps_unfound_query env_mail_encoded
           "list@example.com?subject=Please stop"
           (URL.mk "?subject=Please%20stop"
              (fun name => if String.eqb name "subject"
                           then Some "Please stop" else None)));
    vm_compute; reflexivity.
Defined.

(** * The model at work *)

Example shouldPreHandle_examples :
  shouldPreHandle "https://twitter.com/jack/status/20" = true ∧
  shouldPreHandle "https://x.com/#!/jack/statuses/20/photo/1" = true ∧
  shouldPreHandle "https://twitter.com/jack" = false ∧
  shouldPreHandle "https://example.com/jack/status/20" = false.
Proof. split_and!; vm_compute; reflexivity. Qed.

Example encodeURIComponent_example :
  encodeURIComponent "conversation_id:20" = "conversation_id%3A20" ∧
  embed_url "https://x.com/jack/status/20"
  = "https://publish.twitter.com/oembed?url=https%3A%2F%2Fx.com%2Fjack%2Fstatus%2F20".
Proof. split; vm_compute; reflexivity. Qed.

Example getTweetIds_example :
  (getTweetIds working_browser "20" "jack" empty_world).1 = inr ["30"; "20"] ∧
  trace (getTweetIds working_browser "20" "jack" empty_world).2
  = [ CreateIncognitoBrowserContext; NewPage; SetViewport 8500 10000;
      Goto "https://twitter.com/jack/status/20" 60000; Evaluate; ContextClose ].
Proof. split; vm_compute; reflexivity. Qed.

Example getRecentTweets_example :
  (getRecentTweets env_newer_first "20" empty_world).1
  = inr [tweet_of post_20; tweet_of post_30].
Proof. vm_compute. reflexivity. Qed.
